(** * redis-dumper: the dump pipeline of [lib/dump.js]

    A shallow embedding of [outputProtocol] (the per-key serialization) and of
    the [RedisDumper] readable stream (the session driving the key scan and the
    per-key resolutions), followed by the properties of both.

    Conventions.
    - A [Buffer] is a byte string; a JavaScript string is modelled by the same
      type, one character per code unit below 256.
    - JavaScript numbers that the code handles are integers ([dumping], the
      parsed ttl); they are modelled in [Z], [NaN] being [None] and
      [Infinity] being 2^1024, the first value beyond the finite doubles.
    - The RESP encoder ([Command#toWritable] of ioredis) and the store behind
      the connection are external: both are parameters of the development.  A
      concrete encoder, [respWritable], and concrete stores instantiate them in
      the examples. *)

From Stdlib Require Import List String Ascii ZArith Lia Bool Arith Permutation.
From Stdlib Require Import DecimalString DecimalPos.
Import ListNotations.

Local Open Scope string_scope.
Local Open Scope Z_scope.

Definition Buffer : Type := string.

(** ** JavaScript primitives used by the source *)

Module JS.

(** [StrWhiteSpaceChar] restricted to code units below 256:
    TAB, LF, VT, FF, CR, SP and NBSP. *)
Definition isWhiteSpace (c : ascii) : bool :=
  let n := nat_of_ascii c in
  ((9 <=? n) && (n <=? 13) || (n =? 32) || (n =? 160))%nat.

Fixpoint trimStart (s : string) : string :=
  match s with
  | String c s' => if isWhiteSpace c then trimStart s' else s
  | EmptyString => s
  end.

Definition digit (c : ascii) : option Z :=
  let n := nat_of_ascii c in
  if ((48 <=? n) && (n <=? 57))%nat then Some (Z.of_nat n - 48) else None.

(** Longest prefix of decimal digits, read as a number; [acc] is [None]
    until a first digit has been seen. *)
Fixpoint readDigits (s : string) (acc : option Z) : option Z :=
  match s with
  | String c s' =>
      match digit c with
      | Some d =>
          readDigits s' (Some (10 * match acc with Some a => a | None => 0 end + d))
      | None => acc
      end
  | EmptyString => acc
  end.

(** The double nearest to the integer [n], for [n] not negative: the 53 most
    significant bits are kept and the rest is rounded to nearest, ties to
    even; the exponent is not bounded here. *)
Definition roundDouble (n : Z) : Z :=
  let e := Z.log2 n - 52 in
  if e <=? 0 then n
  else
    let q := n / 2 ^ e in
    let r := n mod 2 ^ e in
    let half := 2 ^ (e - 1) in
    let q' := if (half <? r) || ((r =? half) && Z.odd q) then q + 1 else q in
    q' * 2 ^ e.

(** [Infinity] is held as 2^1024, which no finite double reaches. *)
Definition infinity : Z := 2 ^ 1024.

(** The number value of the integer [n]: the nearest double, [Infinity] when
    the rounding reaches 2^1024. *)
Definition toDouble (n : Z) : Z :=
  let m := roundDouble (Z.abs n) in
  Z.sgn n * (if infinity <=? m then infinity else m).

(** [parseInt(s, 10)]: leading white space is skipped, one sign is accepted,
    then the longest run of decimal digits is read and the rest is ignored;
    [None] is [NaN].  The result is the number value of the integer read,
    all of whose digits count, as in V8. *)
Definition parseInt (s : string) : option Z :=
  match trimStart s with
  | String "-" r => option_map (fun m => toDouble (- m)) (readDigits r None)
  | String "+" r => option_map toDouble (readDigits r None)
  | r => option_map toDouble (readDigits r None)
  end.

(** [Buffer.concat] *)
Definition concat (bs : list Buffer) : Buffer :=
  fold_right String.append EmptyString bs.

(** [Array.prototype.pop]: the last element and the array without it. *)
Definition pop {A} (l : list A) : option (A * list A) :=
  match rev l with
  | [] => None
  | x :: _ => Some (x, removelast l)
  end.

End JS.

(** ** Commands *)

(** An argument of a command: a [Buffer] or a number. *)
Inductive Arg : Type :=
| ABuf (b : Buffer)
| ANum (n : Z).

(** [new Command(name, args)] *)
Record Command : Type := mkCommand { name : string; args : list Arg }.

(** What [loadValue] resolves to: one [Buffer] ([getBuffer]) or an array of
    them (the other four replies). *)
Inductive Value : Type :=
| VBuf (b : Buffer)
| VList (l : list Buffer).

(** [...value]: an array spreads to its elements, a [Buffer] to its bytes,
    which are numbers. *)
Definition spread (v : Value) : list Arg :=
  match v with
  | VList l => map ABuf l
  | VBuf b => map (fun c => ANum (Z.of_nat (nat_of_ascii c))) (list_ascii_of_string b)
  end.

(** [value.reverse()], defined on arrays and on [Buffer]s alike. *)
Definition reverse (v : Value) : Value :=
  match v with
  | VList l => VList (rev l)
  | VBuf b => VBuf (string_of_list_ascii (rev (list_ascii_of_string b)))
  end.

(** [[key, value]] as the [Command] constructor receives it: the constructor
    flattens its argument array by one level. *)
Definition flatten1 (v : Value) : list Arg :=
  match v with
  | VBuf b => [ABuf b]
  | VList l => map ABuf l
  end.

(** The [switch (type)] of [outputProtocol]: the commands pushed for the
    type, in order. *)
Definition typeCommands (key : Buffer) (type : string) (value : Value) : list Command :=
  if String.eqb type "string" then
    [mkCommand "SET" (ABuf key :: flatten1 value)]
  else if String.eqb type "list" then
    [mkCommand "DEL" [ABuf key]; mkCommand "RPUSH" (ABuf key :: spread value)]
  else if String.eqb type "set" then
    [mkCommand "DEL" [ABuf key]; mkCommand "SADD" (ABuf key :: spread value)]
  else if String.eqb type "zset" then
    [mkCommand "DEL" [ABuf key]; mkCommand "ZADD" (ABuf key :: spread (reverse value))]
  else if String.eqb type "hash" then
    [mkCommand "DEL" [ABuf key]; mkCommand "HMSET" (ABuf key :: spread value)]
  else
    [].

(** The tail of [outputProtocol]:
    [if (!Number.isNaN(expire) && expire !== -1) commands.push(cmd('EXPIRE', [key, expire]))]. *)
Definition expireCommands (key : Buffer) (ttl : string) : list Command :=
  match JS.parseInt ttl with
  | Some expire =>
      if negb (expire =? -1) then [mkCommand "EXPIRE" [ABuf key; ANum expire]] else []
  | None => []
  end.

(** The array [commands] of [outputProtocol] before encoding. *)
Definition outputCommands (key : Buffer) (type : string) (value : Value) (ttl : string)
  : list Command :=
  typeCommands key type value ++ expireCommands key ttl.

(** The five kinds [outputProtocol] and [loadValue] handle. *)
Definition handled (type : string) : bool :=
  String.eqb type "string" || String.eqb type "list" || String.eqb type "set"
  || String.eqb type "zset" || String.eqb type "hash".

(** The text of an integer with all its digits, as a RESP integer reply
    carries it and as the length of a bulk string is written. *)
Definition decimal (n : Z) : string :=
  NilZero.string_of_int (Z.to_int n).

(** ** The encoder of the instances *)

Definition CRLF : string := String (ascii_of_nat 13) (String (ascii_of_nat 10) EmptyString).

(** The shortest digits [s] and the exponent [n] such that the double
    nearest to [s * 10 ^ (n - k)] is [x], for [k] digits in [s]; [x] is a
    positive double of [d] decimal digits, and of two candidates the one
    nearer to [x] is taken. *)
Fixpoint shortestDigits (fuel : nat) (k d x : Z) : Z * Z :=
  match fuel with
  | O => (x, d)
  | S fuel' =>
      let p := 10 ^ (d - k) in
      let lo := x / p in
      let hi := lo + 1 in
      let okLo := JS.toDouble (lo * p) =? x in
      let okHi := JS.toDouble (hi * p) =? x in
      if okLo || okHi then
        let s :=
          if okLo && okHi then
            if x - lo * p <? hi * p - x then lo
            else if hi * p - x <? x - lo * p then hi
            else if Z.even lo then lo else hi
          else if okLo then lo else hi in
        if s =? 10 ^ k then (1, d + 1) else (s, d)
      else shortestDigits fuel' (k + 1) d x
  end.

Definition zeros (n : Z) : string :=
  string_of_list_ascii (repeat "0"%char (Z.to_nat n)).

(** [String(n)] for a number that is an integer or [Infinity]: the shortest
    digits that denote the double, followed by zeros up to 21 digits and in
    exponent form beyond. *)
Definition numberToString (n : Z) : string :=
  let x := JS.toDouble n in
  let a := Z.abs x in
  if a =? 0 then "0"
  else
    (if x <? 0 then "-" else "") ++
    (if JS.infinity <=? a then "Infinity"
     else
       let d := Z.of_nat (String.length (decimal a)) in
       let (s, e) := shortestDigits 17 1 d a in
       let ds := decimal s in
       let k := Z.of_nat (String.length ds) in
       if e <=? 21 then ds ++ zeros (e - k)
       else
         match ds with
         | String c EmptyString => String c "e+" ++ decimal (e - 1)
         | String c r => String c ("." ++ r) ++ "e+" ++ decimal (e - 1)
         | EmptyString => EmptyString
         end).

Definition argBytes (a : Arg) : Buffer :=
  match a with
  | ABuf b => b
  | ANum n => numberToString n
  end.

Definition bulk (b : Buffer) : Buffer :=
  "$" ++ decimal (Z.of_nat (String.length b)) ++ CRLF ++ b ++ CRLF.

(** The RESP array of bulk strings that [Command#toWritable] produces; an
    argument that is a number is written as [String] prints it. *)
Definition respWritable (c : Command) : Buffer :=
  "*" ++ decimal (Z.of_nat (S (List.length (args c)))) ++ CRLF
  ++ bulk (name c) ++ JS.concat (map (fun a => bulk (argBytes a)) (args c)).

(** ** The store and the replies of its client *)

(** A reply of the client: the promise is fulfilled with a value or rejected
    with an error message.  A synchronous [throw] inside a [then] callback
    rejects the chain in the same way. *)
Inductive Reply (A : Type) : Type :=
| Fulfilled (a : A)
| Rejected (e : string).
Arguments Fulfilled {A} a.
Arguments Rejected {A} e.

Definition bind {A B} (r : Reply A) (k : A -> Reply B) : Reply B :=
  match r with
  | Fulfilled a => k a
  | Rejected e => Rejected e
  end.

Notation "x <- r ;; k" := (bind r (fun x => k))
  (at level 61, r at next level, right associativity).

(** The store as the dumper sees it through one connection: the pages that
    the cursor scan yields for the filter, and the replies to the calls made
    per key.  [getBuffer] resolves to [null], here [None], for a key that
    holds nothing.  [stringNumbers: true] makes the integer reply of [ttl] a
    string.  The store does not change during the session. *)
Record Store : Type := mkStore {
  scanPages : list (list Buffer);
  typeOf : Buffer -> Reply string;
  getBuffer : Buffer -> Reply (option Buffer);
  lrangeBuffer : Buffer -> Reply (list Buffer);
  smembersBuffer : Buffer -> Reply (list Buffer);
  zrangeBuffer : Buffer -> Reply (list Buffer);
  hgetallBuffer : Buffer -> Reply (list Buffer);
  ttlOf : Buffer -> Reply string
}.

(** ** The state of a [RedisDumper] *)

(** The scan stream of ioredis, as far as the dumper uses it: it is flowing
    or paused, it still has [pages] to deliver, and it has emitted ['end']
    or not. *)
Record ScanStream : Type := mkScan {
  paused : bool;
  pages : list (list Buffer);
  finished : bool
}.

(** What [Readable.prototype.push] receives: a chunk or [null]. *)
Inductive Chunk : Type :=
| Data (b : Buffer)
| End.

Definition isEnd (c : Chunk) : bool :=
  match c with End => true | Data _ => false end.

(** The fields [scanStream], [scanDrained], [dumping] and [keys] are those of
    the class.  [reading] is the flag of the stream base class that is set
    when it calls [_read] and cleared by a push.  [pending] holds the keys
    whose promise chain, started by [dumpKey], has not settled yet, and
    [settled] those whose chain has, in the order of settlement.  [pushed]
    and [errors] record what the stream base class was given: the chunks of
    [super.push] and the ['error'] events, oldest first.  [faults] holds
    those of the errors that the connection or the scan stream raised. *)
Record RedisDumper : Type := mkDumper {
  scanStream : option ScanStream;
  scanDrained : bool;
  dumping : Z;
  keys : list Buffer;
  reading : bool;
  pending : list Buffer;
  settled : list Buffer;
  pushed : list Chunk;
  errors : list string;
  faults : list string
}.

(** The constructor. *)
Definition create : RedisDumper :=
  mkDumper None false 0 [] false [] [] [] [] [].

Definition ended (s : RedisDumper) : bool := existsb isEnd (pushed s).

Definition withScan (st : option ScanStream) (s : RedisDumper) : RedisDumper :=
  mkDumper st (scanDrained s) (dumping s) (keys s) (reading s) (pending s)
    (settled s) (pushed s) (errors s) (faults s).

Definition withKeys (ks : list Buffer) (s : RedisDumper) : RedisDumper :=
  mkDumper (scanStream s) (scanDrained s) (dumping s) ks (reading s) (pending s)
    (settled s) (pushed s) (errors s) (faults s).

Definition withDrained (b : bool) (s : RedisDumper) : RedisDumper :=
  mkDumper (scanStream s) b (dumping s) (keys s) (reading s) (pending s)
    (settled s) (pushed s) (errors s) (faults s).

Definition withDumping (n : Z) (s : RedisDumper) : RedisDumper :=
  mkDumper (scanStream s) (scanDrained s) n (keys s) (reading s) (pending s)
    (settled s) (pushed s) (errors s) (faults s).

Definition withReading (b : bool) (s : RedisDumper) : RedisDumper :=
  mkDumper (scanStream s) (scanDrained s) (dumping s) (keys s) b (pending s)
    (settled s) (pushed s) (errors s) (faults s).

Definition withPending (p q : list Buffer) (s : RedisDumper) : RedisDumper :=
  mkDumper (scanStream s) (scanDrained s) (dumping s) (keys s) (reading s) p q
    (pushed s) (errors s) (faults s).

Definition withFaults (f : list string) (s : RedisDumper) : RedisDumper :=
  mkDumper (scanStream s) (scanDrained s) (dumping s) (keys s) (reading s)
    (pending s) (settled s) (pushed s) (errors s) f.

(** [super.push(c)]: the base class takes the chunk and clears its flag
    [reading]. *)
Definition superPush (c : Chunk) (s : RedisDumper) : RedisDumper :=
  mkDumper (scanStream s) (scanDrained s) (dumping s) (keys s) false (pending s)
    (settled s) (pushed s ++ [c]) (errors s) (faults s).

(** [this.emitError(e)] *)
Definition emitError (e : string) (s : RedisDumper) : RedisDumper :=
  mkDumper (scanStream s) (scanDrained s) (dumping s) (keys s) (reading s)
    (pending s) (settled s) (pushed s) (errors s ++ [e]) (faults s).

(** [l] without its element of index [i]. *)
Fixpoint dropNth {A} (i : nat) (l : list A) : list A :=
  match l, i with
  | [], _ => []
  | _ :: l', O => l'
  | x :: l', S i' => x :: dropNth i' l'
  end.

(** [l] is [l1] and [l2] shuffled together, each in its order. *)
Inductive Interleaved {A : Type} : list A -> list A -> list A -> Prop :=
| il_nil : Interleaved [] [] []
| il_left l1 l2 l x :
    Interleaved l1 l2 l -> Interleaved (l1 ++ [x]) l2 (l ++ [x])
| il_right l1 l2 l x :
    Interleaved l1 l2 l -> Interleaved l1 (l2 ++ [x]) (l ++ [x]).

(** ** Concrete stores for the examples *)

(** A store whose keys all have the same type, value replies and ttl. *)
Definition uniformStore (ps : list (list Buffer)) (type : string) (b : Buffer)
  (l : list Buffer) (ttl : string) : Store :=
  mkStore ps (fun _ => Fulfilled type) (fun _ => Fulfilled (Some b))
    (fun _ => Fulfilled l) (fun _ => Fulfilled l) (fun _ => Fulfilled l)
    (fun _ => Fulfilled l) (fun _ => Fulfilled ttl).

(** An empty database: the scan yields one empty page. *)
Definition emptyStore : Store := uniformStore [[]] "none" "" [] "-2".

(** One string key, [key] = [value], without expiration; the scan yields an
    empty page before the one holding the key. *)
Definition oneStringStore : Store := uniformStore [[]; ["key"]] "string" "value" [] "-1".

(** One key of a type that the dumper does not handle. *)
Definition streamStore : Store := uniformStore [["events"]] "stream" "" [] "-1".

(** A store of two string keys that the scan yields in one page. *)
Definition twoKeyStore : Store := uniformStore [["a"; "b"]] "string" "v" [] "-1".

(** A store on which the ttl of every key cannot be fetched. *)
Definition brokenTtlStore : Store :=
  mkStore [["k"]] (fun _ => Fulfilled "string") (fun _ => Fulfilled (Some "v"))
    (fun _ => Fulfilled []) (fun _ => Fulfilled []) (fun _ => Fulfilled [])
    (fun _ => Fulfilled []) (fun _ => Rejected "ERR ttl").

(** A store whose one string key has vanished when its value is fetched. *)
Definition vanishedStore : Store :=
  mkStore [["k"]] (fun _ => Fulfilled "string") (fun _ => Fulfilled None)
    (fun _ => Fulfilled []) (fun _ => Fulfilled []) (fun _ => Fulfilled [])
    (fun _ => Fulfilled []) (fun _ => Fulfilled "-2").

(** States of the sessions on these stores. *)
Definition oneStringFrame : Buffer :=
  respWritable (mkCommand "SET" [ABuf "key"; ABuf "value"]).

(** The key is in flight, the scan stream paused. *)
Definition oneStringInFlight : RedisDumper :=
  mkDumper (Some (mkScan true [] false)) false 1 [] true ["key"] [] [] [] [].

(** The scan has ended while the key was in flight, and the key has then
    been pushed. *)
Definition oneStringPushed : RedisDumper :=
  mkDumper (Some (mkScan true [] true)) true 0 [] false [] ["key"]
    [Data oneStringFrame] [] [].

Definition oneStringDone : RedisDumper :=
  mkDumper (Some (mkScan true [] true)) true 0 [] false [] ["key"]
    [Data oneStringFrame; End] [] [].

(** The empty database, before and after the end of the scan. *)
Definition emptyScanning : RedisDumper :=
  mkDumper (Some (mkScan false [] false)) false 0 [] true [] [] [] [] [].

Definition emptyDone : RedisDumper :=
  mkDumper (Some (mkScan false [] true)) true 0 [] false [] [] [End] [] [].

(** The key of an unhandled type: in flight, once its chain has been
    rejected, and once the scan has ended as well. *)
Definition streamInFlight : RedisDumper :=
  mkDumper (Some (mkScan true [] false)) false 1 [] true ["events"] [] [] [] [].

Definition streamFailed : RedisDumper :=
  mkDumper (Some (mkScan true [] false)) false 1 [] true [] ["events"] []
    ["Unhandled type"] [].

Definition streamStuck : RedisDumper :=
  mkDumper (Some (mkScan true [] true)) true 1 [] true [] ["events"] []
    ["Unhandled type"] [].

(** The page of two keys has arrived: the last key of the page is in
    flight, the first one is queued. *)
Definition twoKeyQueued : RedisDumper :=
  mkDumper (Some (mkScan true [] false)) false 1 ["a"] true ["b"] [] [] [] [].

(** The end of the scan has arrived on the paused stream and has started
    the queued key. *)
Definition twoKeyBothInFlight : RedisDumper :=
  mkDumper (Some (mkScan true [] true)) true 2 [] true ["b"; "a"] [] [] [] [].

(** ** The methods of [RedisDumper] *)

Section Dumper.

(** [Command#toWritable], the encoder of ioredis. *)
Variable toWritable : Command -> Buffer.

(** The store behind [this.redis]. *)
Variable store : Store.

(** [outputProtocol(key, type, value, ttl)] *)
Definition outputProtocol (key : Buffer) (type : string) (value : Value) (ttl : string)
  : Buffer :=
  JS.concat (map toWritable (outputCommands key type value ttl)).

(** [loadValue(key, type)]; the [default] case throws.  [None] is the [null]
    that [getBuffer] may resolve to. *)
Definition loadValue (key : Buffer) (type : string) : Reply (option Value) :=
  if String.eqb type "string" then
    b <- getBuffer store key ;; Fulfilled (option_map VBuf b)
  else if String.eqb type "list" then
    l <- lrangeBuffer store key ;; Fulfilled (Some (VList l))
  else if String.eqb type "set" then
    l <- smembersBuffer store key ;; Fulfilled (Some (VList l))
  else if String.eqb type "zset" then
    l <- zrangeBuffer store key ;; Fulfilled (Some (VList l))
  else if String.eqb type "hash" then
    l <- hgetallBuffer store key ;; Fulfilled (Some (VList l))
  else Rejected "Unhandled type".

(** The value that the frames carry for what [loadValue] resolved to.  A
    [null] comes from [getBuffer] only, so it reaches the SET frame only,
    where the [Command] constructor writes it as the empty string: its
    frame is that of an empty [Buffer]. *)
Definition written (loaded : option Value) : Value :=
  match loaded with
  | Some value => value
  | None => VBuf EmptyString
  end.

(** The promise chain of [dumpKey] up to its [catch]: the bytes that
    [this.push] will receive, or the error that [this.emitError] will. *)
Definition resolution (key : Buffer) : Reply Buffer :=
  type <- typeOf store key ;;
  value <- loadValue key type ;;
  ttl <- ttlOf store key ;;
  Fulfilled (outputProtocol key type (written value) ttl).

(** [setupScanStream()]: the new stream has a ['data'] listener, so it
    flows.  Its ['error'] listener and that of the connection are the
    event [Fault] below. *)
Definition setupScanStream (s : RedisDumper) : RedisDumper :=
  withScan (Some (mkScan false (scanPages store) false)) s.

(** [dumpKey(key)]: the counter goes up and the chain is started. *)
Definition dumpKey (key : Buffer) (s : RedisDumper) : RedisDumper :=
  withPending (pending s ++ [key]) (settled s) (withDumping (dumping s + 1) s).

(** [nextKey()] *)
Definition nextKey (s : RedisDumper) : RedisDumper :=
  match JS.pop (keys s) with
  | Some (key, rest) => dumpKey key (withKeys rest s)
  | None =>
      match scanStream s with
      | None => setupScanStream s
      | Some st =>
          if negb (scanDrained s) && paused st then
            withScan (Some (mkScan false (pages st) (finished st))) s
          else if scanDrained s && (dumping s =? 0) then
            superPush End s
          else s
      end
  end.

(** [push(value)] *)
Definition push (value : Buffer) (s : RedisDumper) : RedisDumper :=
  superPush (Data value) (withDumping (dumping s - 1) s).

(** [_read()] *)
Definition _read (s : RedisDumper) : RedisDumper := nextKey s.

(** The ['data'] listener of the scan stream. *)
Definition onScanData (batch : list Buffer) (s : RedisDumper) : RedisDumper :=
  let s1 := withKeys batch s in
  let s2 :=
    match scanStream s1 with
    | Some st => withScan (Some (mkScan true (pages st) (finished st))) s1
    | None => s1
    end in
  nextKey s2.

(** The ['end'] listener of the scan stream. *)
Definition onScanEnd (s : RedisDumper) : RedisDumper :=
  nextKey (withDrained true s).

(** The two ends of the chain of [dumpKey] for the key [key]:
    [then(... => this.push(outputProtocol(...)))] and [catch(this.emitError)]. *)
Definition settle (key : Buffer) (s : RedisDumper) : RedisDumper :=
  match resolution key with
  | Fulfilled bytes => push bytes s
  | Rejected e => emitError e s
  end.

(** The ['error'] listeners that [setupScanStream] puts on the connection
    and on the scan stream: both are [this.emitError]. *)
Definition onFault (e : string) (s : RedisDumper) : RedisDumper :=
  emitError e (withFaults (faults s ++ [e]) s).

(** ** The events that drive a session

    The environment calls into the dumper.
    - [Read]: the stream base class calls [_read].  It does so only while
      its flag [reading] is clear and [null] has not been pushed, and it
      sets the flag; only a push clears it.
    - [ScanData]: the scan stream delivers its next page, which it does
      only while it flows.
    - [ScanEnd]: the scan stream emits ['end'] once its last page has been
      delivered.  It fetches ahead while it is paused, so the end is let
      arrive on a paused stream as well as on a flowing one; the progress
      results use it on a flowing stream only ([regular]).
    - [Settle i]: the chain of the [i]-th pending key settles.
    - [Fault e]: the connection or the scan stream emits the error [e];
      this needs the listeners, hence a scan stream set up.
    The events come in any order.  What the consumer does when it receives
    an ['error'] event is left out, and so is what the connection and the
    scan stream do after a fault: the events after an error are those that
    the code would still handle. *)
Inductive Event : Type :=
| Read
| ScanData
| ScanEnd
| Settle (i : nat)
| Fault (e : string).

Definition step (e : Event) (s : RedisDumper) : option RedisDumper :=
  match e with
  | Read =>
      if ended s || reading s then None else Some (_read (withReading true s))
  | ScanData =>
      match scanStream s with
      | Some (mkScan false (batch :: rest) false) =>
          Some (onScanData batch (withScan (Some (mkScan false rest false)) s))
      | _ => None
      end
  | ScanEnd =>
      match scanStream s with
      | Some (mkScan p [] false) =>
          Some (onScanEnd (withScan (Some (mkScan p [] true)) s))
      | _ => None
      end
  | Settle i =>
      match nth_error (pending s) i with
      | Some key =>
          Some (settle key (withPending (dropNth i (pending s)) (settled s ++ [key]) s))
      | None => None
      end
  | Fault e =>
      match scanStream s with
      | Some _ => Some (onFault e s)
      | None => None
      end
  end.

(** The events that are no fault of the connection or of the scan stream. *)
Definition quiet (e : Event) : bool :=
  match e with Fault _ => false | _ => true end.

(** The events that are no fault and that do not need the end of the scan
    to arrive on a paused stream. *)
Definition regular (e : Event) (s : RedisDumper) : bool :=
  match e with
  | Fault _ => false
  | ScanEnd =>
      match scanStream s with
      | Some st => negb (paused st)
      | None => false
      end
  | _ => true
  end.

(** A session: the events in order, from the state [s]. *)
Fixpoint run (es : list Event) (s : RedisDumper) : option RedisDumper :=
  match es with
  | [] => Some s
  | e :: es' =>
      match step e s with
      | Some s' => run es' s'
      | None => None
      end
  end.

Definition reachable (s : RedisDumper) : Prop :=
  exists es, run es create = Some s.

(** The bytes delivered to the consumer. *)
Definition chunkBytes (c : Chunk) : Buffer :=
  match c with Data b => b | End => EmptyString end.

Definition output (s : RedisDumper) : Buffer :=
  JS.concat (map chunkBytes (pushed s)).

(** The chunks and the errors that the settled chains have produced. *)
Definition fulfilledOf (key : Buffer) : list Chunk :=
  match resolution key with Fulfilled b => [Data b] | Rejected _ => [] end.

Definition rejectedOf (key : Buffer) : list string :=
  match resolution key with Fulfilled _ => [] | Rejected e => [e] end.

(** The errors of the chains settled so far. *)
Definition rejections (s : RedisDumper) : list string :=
  flat_map rejectedOf (settled s).

(** All the keys that the scan yields. *)
Definition scannedKeys : list Buffer := List.concat (scanPages store).

Definition remainingPages (s : RedisDumper) : list (list Buffer) :=
  match scanStream s with
  | None => scanPages store
  | Some st => pages st
  end.

(** ** A progress measure

    Every event lowers [weight], but for a fault, which leaves it. *)
Definition pagesWeight (ps : list (list Buffer)) : nat :=
  fold_right (fun p n => (4 * List.length p + 2 + n)%nat) O ps.

Definition scanWeight (s : RedisDumper) : nat :=
  match scanStream s with
  | None => (pagesWeight (scanPages store) + 2)%nat
  | Some st =>
      (pagesWeight (pages st) + (if paused st then 1 else 0)
       + (if finished st then 0 else 1))%nat
  end.

Definition weight (s : RedisDumper) : nat :=
  (3 * List.length (pending s) + 4 * List.length (keys s) + scanWeight s
   + (if ended s then 0 else 1) + (if reading s then 0 else 1))%nat.

(** ** The invariant of a session

    [scanShape] ties the flags of the dumper to the state of the scan
    stream: a flowing stream means an empty batch, and [scanDrained] is set
    exactly when the stream has ended.  [awaited] says that while the base
    class waits for a push, either a chain has failed or something is still
    to come that calls into the dumper: a chain to settle, or an event of
    the scan stream, which flows.  [Inv] adds the balance of the counter,
    the origin of every chunk and error, and the conservation of the
    scanned keys. *)
Definition scanShape (s : RedisDumper) : Prop :=
  match scanStream s with
  | None =>
      scanDrained s = false /\ keys s = [] /\ pending s = [] /\ settled s = []
  | Some st =>
      finished st = scanDrained s
      /\ (paused st = false -> keys s = [])
      /\ (finished st = true -> pages st = [])
  end.

Definition awaited (s : RedisDumper) : Prop :=
  reading s = true ->
  pending s <> [] \/ rejections s <> []
  \/ exists st, scanStream s = Some st /\ finished st = false
                /\ paused st = false.

Record Inv (s : RedisDumper) : Prop := mkInv {
  inv_dumping :
    dumping s = Z.of_nat (List.length (pending s)) + Z.of_nat (List.length (rejections s));
  inv_errors : Interleaved (rejections s) (faults s) (errors s);
  inv_pushed :
    pushed s = (flat_map fulfilledOf (settled s) ++ (if ended s then [End] else []))%list;
  inv_ended :
    ended s = true ->
    scanDrained s = true /\ dumping s = 0 /\ keys s = [] /\ pending s = []
    /\ reading s = false;
  inv_scan : scanShape s;
  inv_awaited : awaited s;
  inv_keys :
    Permutation scannedKeys
      (settled s ++ pending s ++ keys s ++ List.concat (remainingPages s))%list
}.

(** The number of chunks of bytes pushed so far, the number of ends pushed,
    and the number of resolutions started so far. *)
Definition dataCount (s : RedisDumper) : nat :=
  List.length (filter (fun c => negb (isEnd c)) (pushed s)).


Definition startedCount (s : RedisDumper) : nat :=
  (List.length (settled s) + List.length (pending s))%nat.

(** The number that a run of decimal digits denotes after the digits
    already read, which denote [acc]. *)
Fixpoint uintValue (d : Decimal.uint) (acc : Z) : Z :=
  match d with
  | Decimal.Nil => acc
  | Decimal.D0 d => uintValue d (10 * acc)
  | Decimal.D1 d => uintValue d (10 * acc + 1)
  | Decimal.D2 d => uintValue d (10 * acc + 2)
  | Decimal.D3 d => uintValue d (10 * acc + 3)
  | Decimal.D4 d => uintValue d (10 * acc + 4)
  | Decimal.D5 d => uintValue d (10 * acc + 5)
  | Decimal.D6 d => uintValue d (10 * acc + 6)
  | Decimal.D7 d => uintValue d (10 * acc + 7)
  | Decimal.D8 d => uintValue d (10 * acc + 8)
  | Decimal.D9 d => uintValue d (10 * acc + 9)
  end.

(** ** Data shapes and statements that the properties refer to *)

(** The reply of [zrangeBuffer(key, 0, -1, 'withscores')]: the members in
    ranking order, each followed by its score. *)
Definition withScores (ps : list (Buffer * Buffer)) : list Buffer :=
  flat_map (fun p => [fst p; snd p]) ps.

(** Score before member for each pair, the pairs in the order given. *)
Definition scoreMember (ps : list (Buffer * Buffer)) : list Buffer :=
  flat_map (fun p => [snd p; fst p]) ps.

(** The specification's reading of the zset row: the pairs swapped and the
    ranking order kept. *)
Definition specZaddCommands (key : Buffer) (ps : list (Buffer * Buffer))
  : list Command :=
  [mkCommand "DEL" [ABuf key];
   mkCommand "ZADD" (ABuf key :: map ABuf (scoreMember ps))].

(** The specification's condition for the [EXPIRE] frame: the ttl parses
    to an integer that is not negative. *)
Definition specExpires (ttl : string) : Prop :=
  exists n, JS.parseInt ttl = Some n /\ 0 <= n.

(** The specification's silent drop of a key: between [s] and [s'] nothing
    is pushed, no error is emitted and the counter goes down by one. *)
Definition specDroppedSilently (s s' : RedisDumper) : Prop :=
  pushed s' = pushed s /\ errors s' = errors s /\ dumping s' = dumping s - 1.

(** The integers that every double holds exactly: those up to 2^53 in
    magnitude. *)
Definition safeInteger (t : Z) : Prop :=
  - 9007199254740992 <= t <= 9007199254740992.

(** The list held at [key] in a store that replays the command [c], [l]
    being the list held before, the empty list standing for no key.
    [DEL key] removes the key; [RPUSH key v1 ... vn] appends the values in
    the order given; [EXPIRE key n] leaves the list when [n] is positive
    and removes the key when [n] is zero or below.  [None]: the command is
    none of these, or the store's reading of the number depends on its
    version. *)
Definition replayList (key : Buffer) (l : list Arg) (c : Command)
  : option (list Arg) :=
  match args c with
  | ABuf k :: vs =>
      if negb (String.eqb k key) then None
      else if String.eqb (name c) "DEL" then
        match vs with [] => Some [] | _ => None end
      else if String.eqb (name c) "RPUSH" then Some (l ++ vs)%list
      else if String.eqb (name c) "EXPIRE" then
        match vs with
        | [ANum n] =>
            if 0 <? n then Some l
            else if - 9007199254740992 <=? n then Some []
            else None
        | _ => None
        end
      else None
  | _ => None
  end.

(** The commands [cs] replayed in order. *)
Definition replayAll (key : Buffer) (cs : list Command) (before : list Arg)
  : option (list Arg) :=
  fold_left
    (fun acc c => match acc with Some l => replayList key l c | None => None end)
    cs (Some before).

(** The specification's reading of the list row: replaying the frames
    leaves the elements at the key. *)
Definition specReplayKeeps (key : Buffer) (es : list Buffer) (ttl : string) : Prop :=
  forall before,
    replayAll key (outputCommands key "list" (VList es) ttl) before
    = Some (map ABuf es).


(** ** Notions for the further properties *)

(** An argument that is a [Buffer]. *)
Definition isBuf (a : Arg) : bool :=
  match a with ABuf _ => true | ANum _ => false end.

(** A string of white space only, and a string that does not start with a
    decimal digit. *)
Fixpoint allWhiteSpace (s : string) : bool :=
  match s with
  | EmptyString => true
  | String c s' => JS.isWhiteSpace c && allWhiteSpace s'
  end.

Definition noLeadingDigit (s : string) : bool :=
  match s with
  | EmptyString => true
  | String c _ => match JS.digit c with Some _ => false | None => true end
  end.

(** The keys whose chain the [Settle] events of [es] settle, in the order of
    the events. *)
Fixpoint completions (es : list Event) (s : RedisDumper) : list Buffer :=
  match es with
  | [] => []
  | e :: es' =>
      match step e s with
      | Some s' =>
          (match e with
           | Settle i =>
               match nth_error (pending s) i with Some k => [k] | None => [] end
           | _ => []
           end ++ completions es' s')%list
      | None => []
      end
  end.

(** The errors that the [Fault] events of [es] carry, in the order of the
    events. *)
Definition faultEvents (es : list Event) : list string :=
  flat_map (fun e => match e with Fault msg => [msg] | _ => [] end) es.

(** ** Facts about the primitives *)

Lemma pop_some {A} (l : list A) x r :
  JS.pop l = Some (x, r) -> l = (r ++ [x])%list.
Proof.
  unfold JS.pop. destruct (rev l) as [|y t] eqn:E; [discriminate|].
  intros H. injection H as -> <-.
  assert (L : l = (rev t ++ [x])%list).
  { rewrite <- (rev_involutive l), E. reflexivity. }
  rewrite L at 1. rewrite L, removelast_last. reflexivity.
Qed.

Lemma pop_none {A} (l : list A) : JS.pop l = None -> l = [].
Proof.
  unfold JS.pop. destruct (rev l) as [|y t] eqn:E; [|discriminate].
  intros _. rewrite <- (rev_involutive l), E. reflexivity.
Qed.

Lemma pop_snoc {A} (r : list A) x : JS.pop (r ++ [x])%list = Some (x, r).
Proof.
  unfold JS.pop. rewrite rev_unit, removelast_last. reflexivity.
Qed.

Lemma append_empty (b : Buffer) : (b ++ "")%string = b.
Proof. induction b as [|c b IH]; simpl; [reflexivity | now rewrite IH]. Qed.

Lemma concat_app (l1 l2 : list Buffer) :
  JS.concat (l1 ++ l2) = (JS.concat l1 ++ JS.concat l2)%string.
Proof.
  induction l1 as [|b l1 IH]; simpl; [reflexivity|].
  unfold JS.concat in *. simpl. rewrite IH.
  generalize (fold_right append "" l1) (fold_right append "" l2).
  intros x y. induction b as [|c b IHb]; simpl; [reflexivity | now rewrite IHb].
Qed.

Lemma existsb_isEnd_fulfilled (l : list Buffer) :
  existsb isEnd (flat_map fulfilledOf l) = false.
Proof.
  induction l as [|k l IH]; simpl; [reflexivity|].
  rewrite existsb_app, IH. unfold fulfilledOf.
  destruct (resolution k); reflexivity.
Qed.

Lemma nth_error_dropNth {A} (l : list A) i x :
  nth_error l i = Some x ->
  Permutation l (x :: dropNth i l) /\ List.length l = S (List.length (dropNth i l)).
Proof.
  revert i. induction l as [|y l IH]; intros [|i] H; simpl in *; try discriminate.
  - injection H as ->. split; reflexivity.
  - destruct (IH i H) as [P L]. split.
    + rewrite perm_swap. now constructor.
    + now rewrite L.
Qed.

Lemma il_nil_l {A} (l2 l : list A) : Interleaved [] l2 l -> l = l2.
Proof.
  intros H. remember (@nil A) as l1 eqn:E. induction H as [|l1 l2 l x H IH|l1 l2 l x H IH].
  - reflexivity.
  - apply app_eq_nil in E as [_ E]. discriminate.
  - now rewrite (IH E).
Qed.

Lemma il_length {A} (l1 l2 l : list A) :
  Interleaved l1 l2 l -> List.length l = (List.length l1 + List.length l2)%nat.
Proof.
  induction 1; simpl; rewrite ?length_app; simpl; lia.
Qed.

Lemma il_in_left {A} (l1 l2 l : list A) (x : A) :
  Interleaved l1 l2 l -> In x l1 -> In x l.
Proof.
  induction 1 as [|l1 l2 l y H IH|l1 l2 l y H IH]; intros Hx.
  - contradiction.
  - apply in_app_or in Hx as [Hx|Hx]; apply in_or_app; auto.
  - apply in_or_app. auto.
Qed.

Lemma roundDouble_exact (n : Z) :
  0 <= n <= 9007199254740992 -> JS.roundDouble n = n.
Proof.
  intros H. unfold JS.roundDouble.
  destruct (Z.leb_spec (Z.log2 n - 52) 0) as [L|L]; [reflexivity|].
  assert (E : n = 9007199254740992).
  { destruct (Z.eq_dec n 9007199254740992) as [E|N]; [exact E|exfalso].
    assert (P : 0 < n).
    { destruct (Z.eq_dec n 0) as [->|]; [simpl in L; lia | lia]. }
    assert (B : n < 2 ^ 53) by (change (2 ^ 53) with 9007199254740992; lia).
    apply (Z.log2_lt_pow2 n 53 P) in B. lia. }
  subst n. vm_compute. reflexivity.
Qed.

(** Every integer up to 2^53 in magnitude is its own number value. *)
Lemma toDouble_exact (t : Z) : safeInteger t -> JS.toDouble t = t.
Proof.
  unfold safeInteger, JS.toDouble. intros H.
  rewrite roundDouble_exact by lia.
  assert (I : (JS.infinity <=? Z.abs t) = false).
  { apply Z.leb_gt. apply Z.le_lt_trans with 9007199254740992; [lia|].
    vm_compute. reflexivity. }
  rewrite I. destruct t; simpl; lia.
Qed.

(** ** The invariant holds throughout a session *)

Lemma perm_start (a b r c : list Buffer) k :
  Permutation (a ++ b ++ (r ++ [k]) ++ c)%list (a ++ (b ++ [k]) ++ r ++ c)%list.
Proof.
  repeat rewrite <- app_assoc. do 2 apply Permutation_app_head. simpl.
  symmetry. apply Permutation_middle.
Qed.

Lemma perm_settle (a b b' c : list Buffer) k :
  Permutation b (k :: b') ->
  Permutation (a ++ b ++ c)%list ((a ++ [k]) ++ b' ++ c)%list.
Proof.
  intros P. rewrite <- app_assoc. apply Permutation_app_head. simpl.
  change (k :: b' ++ c)%list with ((k :: b') ++ c)%list.
  now apply Permutation_app_tail.
Qed.

Lemma inv_create : Inv create.
Proof.
  constructor; try reflexivity; try discriminate.
  - constructor.
  - unfold scanShape. simpl. auto.
Qed.

Lemma ended_superPush_End (s : RedisDumper) : ended (superPush End s) = true.
Proof.
  unfold ended. simpl. rewrite existsb_app. simpl. apply orb_true_r.
Qed.

Lemma ended_superPush_Data (b : Buffer) (s : RedisDumper) :
  ended (superPush (Data b) s) = ended s.
Proof.
  unfold ended. simpl. rewrite existsb_app. simpl. now rewrite !orb_false_r.
Qed.

(** [nextKey] re-establishes the invariant from the facts that do not
    mention the flag [reading], which the caller may just have set. *)
Lemma inv_nextKey (s : RedisDumper) :
  dumping s = Z.of_nat (List.length (pending s)) + Z.of_nat (List.length (rejections s)) ->
  Interleaved (rejections s) (faults s) (errors s) ->
  pushed s = flat_map fulfilledOf (settled s) ->
  scanShape s ->
  Permutation scannedKeys
    (settled s ++ pending s ++ keys s ++ List.concat (remainingPages s))%list ->
  Inv (nextKey s).
Proof.
  intros Hd He Hp Hs Hk.
  assert (Hnot : ended s = false).
  { unfold ended. rewrite Hp. apply existsb_isEnd_fulfilled. }
  assert (Hp' : pushed s = (flat_map fulfilledOf (settled s)
                            ++ (if ended s then [End] else []))%list).
  { rewrite Hnot. now rewrite app_nil_r. }
  unfold nextKey.
  destruct (JS.pop (keys s)) as [[k r]|] eqn:P.
  - apply pop_some in P. constructor.
    + simpl. unfold rejections in *. simpl. rewrite length_app. simpl. lia.
    + exact He.
    + exact Hp'.
    + intros E. change (ended s = true) in E. congruence.
    + unfold scanShape in *. simpl. destruct (scanStream s) as [st|].
      * destruct Hs as (H1 & H3 & H4). repeat split; auto.
        intros Hf. apply H3 in Hf. rewrite Hf in P. now destruct r.
      * destruct Hs as (_ & H & _). rewrite H in P. now destruct r.
    + intros _. left. simpl. now destruct (pending s).
    + unfold remainingPages in *. simpl. rewrite P in Hk.
      rewrite Hk. apply perm_start.
  - apply pop_none in P. destruct (scanStream s) as [st|] eqn:Sc.
    + unfold scanShape in Hs. rewrite Sc in Hs. destruct Hs as (H1 & H3 & H4).
      destruct (negb (scanDrained s) && paused st) eqn:C1.
      * apply andb_prop in C1 as [C0 C1]. apply negb_true_iff in C0.
        constructor; [exact Hd | exact He | exact Hp' | | | | ].
        -- intros E. change (ended s = true) in E. congruence.
        -- unfold scanShape. simpl. repeat split; auto.
        -- intros _. right. right. eexists. split; [reflexivity|]. simpl.
           split; [congruence | reflexivity].
        -- unfold remainingPages in *. simpl. now rewrite Sc in Hk.
      * destruct (scanDrained s && (dumping s =? 0)) eqn:C2.
        -- apply andb_prop in C2 as [D Z0]. apply Z.eqb_eq in Z0.
           assert (Pe : pending s = []).
           { destruct (pending s); [reflexivity|]. cbn [List.length] in Hd. lia. }
           constructor; [exact Hd | exact He | | | | | ].
           ++ rewrite ended_superPush_End. simpl. now rewrite Hp.
           ++ intros _. simpl. auto.
           ++ unfold scanShape. simpl. rewrite Sc. auto.
           ++ intros R. discriminate R.
           ++ unfold remainingPages in *. simpl. now rewrite Sc in *.
        -- constructor; [exact Hd | exact He | exact Hp' | | | | exact Hk].
           ++ intros E. congruence.
           ++ unfold scanShape. rewrite Sc. auto.
           ++ intros _. destruct (scanDrained s) eqn:D.
              ** simpl in C2. apply Z.eqb_neq in C2.
                 destruct (pending s) as [|x p]; [|left; discriminate].
                 right. left. intros R. rewrite R in Hd. simpl in Hd. lia.
              ** simpl in C1. right. right. exists st.
                 split; [exact Sc|]. split; [congruence | exact C1].
    + unfold scanShape in Hs. rewrite Sc in Hs.
      constructor; [exact Hd | exact He | exact Hp' | | | | ].
      * intros E. change (ended s = true) in E. congruence.
      * unfold scanShape. simpl. destruct Hs as (H1 & H2 & _). repeat split; auto.
        discriminate.
      * intros _. right. right. eexists. split; [reflexivity|]. simpl. auto.
      * unfold remainingPages in *. simpl. now rewrite Sc in Hk.
Qed.

Lemma ended_false_of_pending (s : RedisDumper) :
  Inv s -> pending s <> [] -> ended s = false.
Proof.
  intros I N. destruct (ended s) eqn:E; [|reflexivity].
  destruct (inv_ended s I E) as (_ & _ & _ & P & _). contradiction.
Qed.

Lemma ended_false_of_scanning (s : RedisDumper) :
  Inv s -> scanDrained s = false -> ended s = false.
Proof.
  intros I N. destruct (ended s) eqn:E; [|reflexivity].
  destruct (inv_ended s I E) as (D & _). congruence.
Qed.

Lemma pushed_not_ended (s : RedisDumper) :
  Inv s -> ended s = false -> pushed s = flat_map fulfilledOf (settled s).
Proof.
  intros I E. rewrite (inv_pushed s I), E. apply app_nil_r.
Qed.

Lemma inv_step (e : Event) (s s' : RedisDumper) :
  Inv s -> step e s = Some s' -> Inv s'.
Proof.
  intros I. destruct e as [ | | |i|msg]; simpl.
  - destruct (ended s) eqn:E; [discriminate|].
    destruct (reading s) eqn:Rd; [discriminate|]. simpl.
    intros H. injection H as <-.
    destruct I as [Hd He Hp Hen Hs Ha Hk]. unfold _read.
    apply inv_nextKey; auto.
    simpl. rewrite Hp, E. apply app_nil_r.
  - destruct (scanStream s) as [[[] [|batch rest] []]|] eqn:Sc; try discriminate.
    intros H. injection H as <-.
    pose proof (inv_scan s I) as Hs. unfold scanShape in Hs. rewrite Sc in Hs.
    simpl in Hs. destruct Hs as (H1 & H3 & _).
    assert (En : ended s = false) by (apply ended_false_of_scanning; auto).
    pose proof (pushed_not_ended s I En) as Hp.
    destruct I as [Hd He _ Hen _ Ha Hk].
    unfold onScanData. simpl. apply inv_nextKey; auto.
    + unfold scanShape. simpl. repeat split; auto; discriminate.
    + unfold remainingPages in *. rewrite Sc in Hk. simpl in *.
      now rewrite (H3 eq_refl) in Hk.
  - destruct (scanStream s) as [[pa [|batch rest] []]|] eqn:Sc; try discriminate.
    intros H. injection H as <-.
    pose proof (inv_scan s I) as Hs. unfold scanShape in Hs. rewrite Sc in Hs.
    simpl in Hs. destruct Hs as (H1 & H3 & _).
    assert (En : ended s = false) by (apply ended_false_of_scanning; auto).
    pose proof (pushed_not_ended s I En) as Hp.
    destruct I as [Hd He _ Hen _ Ha Hk].
    unfold onScanEnd. apply inv_nextKey; auto.
    + unfold scanShape. simpl. repeat split; auto.
    + unfold remainingPages in *. rewrite Sc in Hk. exact Hk.
  - destruct (nth_error (pending s) i) as [key|] eqn:N; [|discriminate].
    intros H. injection H as <-.
    assert (Ne : pending s <> []).
    { intros Z0. rewrite Z0 in N. now destruct i. }
    assert (En : ended s = false) by (apply ended_false_of_pending; auto).
    destruct (nth_error_dropNth _ _ _ N) as [Pm Ln].
    destruct I as [Hd He Hp Hen Hs Ha Hk].
    unfold settle. destruct (resolution key) as [bytes|err] eqn:R.
    + assert (En' : ended (push bytes
          (withPending (dropNth i (pending s)) (settled s ++ [key]) s)) = false).
      { unfold push. now rewrite ended_superPush_Data. }
      assert (Rj : rejections (push bytes
          (withPending (dropNth i (pending s)) (settled s ++ [key]) s))
          = rejections s).
      { unfold rejections. simpl. rewrite flat_map_app. simpl.
        unfold rejectedOf at 2. rewrite R. simpl. now rewrite app_nil_r. }
      constructor.
      * rewrite Rj. simpl. rewrite Ln in Hd. lia.
      * rewrite Rj. exact He.
      * rewrite En'. simpl. rewrite flat_map_app. simpl.
        unfold fulfilledOf at 2. rewrite R. rewrite Hp, En.
        now rewrite !app_nil_r.
      * intros E. congruence.
      * unfold scanShape in *. simpl. destruct (scanStream s); [exact Hs|].
        destruct Hs as (_ & _ & Hs & _). contradiction.
      * intros Rd. discriminate Rd.
      * unfold remainingPages in *. simpl. rewrite Hk. now apply perm_settle.
    + assert (Rj : rejections (emitError err
          (withPending (dropNth i (pending s)) (settled s ++ [key]) s))
          = (rejections s ++ [err])%list).
      { unfold rejections. simpl. rewrite flat_map_app. simpl.
        unfold rejectedOf at 2. now rewrite R. }
      constructor.
      * rewrite Rj, length_app. simpl. rewrite Ln in Hd. lia.
      * rewrite Rj. simpl. now constructor.
      * change (ended (emitError err
          (withPending (dropNth i (pending s)) (settled s ++ [key]) s)))
          with (ended s).
        rewrite En. simpl. rewrite flat_map_app. simpl.
        unfold fulfilledOf at 2. rewrite R. rewrite Hp, En.
        now rewrite !app_nil_r.
      * intros E. change (ended s = true) in E. congruence.
      * unfold scanShape in *. simpl. destruct (scanStream s); [exact Hs|].
        destruct Hs as (_ & _ & Hs & _). contradiction.
      * intros _. right. left. rewrite Rj. now destruct (rejections s).
      * unfold remainingPages in *. simpl. rewrite Hk. now apply perm_settle.
  - destruct (scanStream s) as [st|] eqn:Sc; [|discriminate].
    intros H. injection H as <-.
    destruct I as [Hd He Hp Hen Hs Ha Hk].
    constructor; auto.
    + unfold onFault. simpl. now constructor.
Qed.

Lemma inv_run (es : list Event) (s s' : RedisDumper) :
  Inv s -> run es s = Some s' -> Inv s'.
Proof.
  revert s. induction es as [|e es IH]; simpl; intros s I H.
  - now injection H as <-.
  - destruct (step e s) as [s1|] eqn:S1; [|discriminate].
    eapply IH; [|exact H]. eapply inv_step; eauto.
Qed.

Lemma inv_reachable (s : RedisDumper) : reachable s -> Inv s.
Proof. intros [es H]. eapply inv_run; [apply inv_create | exact H]. Qed.


(** ** After the end only faults are taken *)


Lemma no_end_after_rejection (s : RedisDumper) :
  Inv s -> rejections s <> [] -> ended s = false.
Proof.
  intros I N. destruct (ended s) eqn:E; [|reflexivity]. exfalso.
  destruct (inv_ended s I E) as (_ & D0 & _ & P & _).
  pose proof (inv_dumping s I) as Hd. rewrite D0, P in Hd.
  destruct (rejections s); [contradiction|]. cbn [List.length] in Hd. lia.
Qed.

(** ** Progress *)

Lemma nextKey_weight (s : RedisDumper) :
  ended s = false -> (weight (nextKey s) <= weight s)%nat.
Proof.
  intros En. unfold nextKey.
  destruct (JS.pop (keys s)) as [[k r]|] eqn:P.
  - apply pop_some in P. unfold weight, scanWeight. simpl.
    change (ended (dumpKey k (withKeys r s))) with (ended s).
    rewrite P, !length_app. simpl. lia.
  - apply pop_none in P. destruct (scanStream s) as [st|] eqn:Sc.
    + destruct (negb (scanDrained s) && paused st) eqn:C1.
      * apply andb_prop in C1 as [_ C1]. unfold weight, scanWeight.
        simpl. rewrite Sc, C1.
        change (ended (withScan (Some (mkScan false (pages st) (finished st))) s))
          with (ended s).
        lia.
      * destruct (scanDrained s && (dumping s =? 0)) eqn:C2; [|lia].
        unfold weight, scanWeight. rewrite ended_superPush_End, En. simpl.
        rewrite Sc. destruct (reading s); lia.
    + unfold weight, scanWeight. simpl. rewrite Sc.
      change (ended (setupScanStream s)) with (ended s). lia.
Qed.

(** Every event that is no fault lowers the weight; a fault leaves it. *)
Lemma step_weight (e : Event) (s s' : RedisDumper) :
  Inv s -> step e s = Some s' ->
  if quiet e then (weight s' < weight s)%nat else weight s' = weight s.
Proof.
  intros I. destruct e as [ | | |i|msg]; simpl.
  - destruct (ended s) eqn:E; [discriminate|].
    destruct (reading s) eqn:Rd; [discriminate|]. simpl.
    intros H. injection H as <-. unfold _read.
    eapply Nat.le_lt_trans; [apply nextKey_weight; exact E|].
    unfold weight, scanWeight. simpl. rewrite Rd.
    change (ended (withReading true s)) with (ended s). lia.
  - destruct (scanStream s) as [[[] [|batch rest] []]|] eqn:Sc; try discriminate.
    intros H. injection H as <-.
    pose proof (inv_scan s I) as Hs. unfold scanShape in Hs. rewrite Sc in Hs.
    simpl in Hs. destruct Hs as (H1 & _).
    assert (En : ended s = false) by (apply ended_false_of_scanning; auto).
    unfold onScanData. simpl.
    eapply Nat.le_lt_trans; [apply nextKey_weight; exact En|].
    unfold weight, scanWeight. simpl. rewrite Sc. simpl.
    match goal with |- context [ended ?x] => change (ended x) with (ended s) end.
    lia.
  - destruct (scanStream s) as [[pa [|batch rest] []]|] eqn:Sc; try discriminate.
    intros H. injection H as <-.
    pose proof (inv_scan s I) as Hs. unfold scanShape in Hs. rewrite Sc in Hs.
    simpl in Hs. destruct Hs as (H1 & _).
    assert (En : ended s = false) by (apply ended_false_of_scanning; auto).
    unfold onScanEnd.
    eapply Nat.le_lt_trans; [apply nextKey_weight; exact En|].
    unfold weight, scanWeight. simpl. rewrite Sc. simpl.
    match goal with |- context [ended ?x] => change (ended x) with (ended s) end.
    lia.
  - destruct (nth_error (pending s) i) as [key|] eqn:N; [|discriminate].
    intros H. injection H as <-.
    destruct (nth_error_dropNth _ _ _ N) as [_ Ln].
    unfold settle. destruct (resolution key) as [bytes|err].
    + unfold weight, scanWeight, push. rewrite ended_superPush_Data. simpl.
      match goal with |- context [ended ?x] => change (ended x) with (ended s) end.
      destruct (reading s); lia.
    + unfold weight, scanWeight. simpl.
      match goal with |- context [ended ?x] => change (ended x) with (ended s) end.
      lia.
  - destruct (scanStream s) as [st|] eqn:Sc; [|discriminate].
    intros H. injection H as <-. reflexivity.
Qed.

Lemma regular_quiet (e : Event) (s : RedisDumper) :
  regular e s = true -> quiet e = true.
Proof. destruct e; simpl; auto. Qed.

Lemma errors_nil (s : RedisDumper) :
  Inv s -> errors s = [] -> rejections s = [] /\ faults s = [].
Proof.
  intros I E. pose proof (il_length _ _ _ (inv_errors s I)) as L.
  rewrite E in L. simpl in L.
  destruct (rejections s); [|simpl in L; lia].
  destruct (faults s); [auto|simpl in L; lia].
Qed.

(** While the session has neither ended nor met a failing chain, an event
    that is no fault is enabled: a chain in flight settles, the scan stream,
    which flows, delivers a page or its end, or the base class calls
    [_read]. *)
Lemma progress (s : RedisDumper) :
  Inv s -> ended s = false -> rejections s = [] ->
  exists e s', regular e s = true /\ step e s = Some s'.
Proof.
  intros I En Rj.
  destruct (pending s) as [|k p] eqn:Pe.
  - destruct (reading s) eqn:Rd.
    + destruct (inv_awaited s I Rd) as [H|[H|(st & Sc & Fi & Fl)]];
        [congruence | congruence |].
      destruct st as [pa pg fi]. simpl in *. subst fi pa.
      destruct pg as [|batch rest].
      * exists ScanEnd. eexists. simpl. rewrite Sc. auto.
      * exists ScanData. eexists. simpl. rewrite Sc. auto.
    + exists Read. eexists. split; [reflexivity|]. simpl. now rewrite En, Rd.
  - exists (Settle 0). eexists. split; [reflexivity|]. simpl. now rewrite Pe.
Qed.

(** The events of a session that are no faults. *)
Lemma quiet_bound (es : list Event) (s s' : RedisDumper) :
  Inv s -> run es s = Some s' ->
  (List.length (filter quiet es) + weight s' <= weight s)%nat.
Proof.
  revert s. induction es as [|e es IH]; simpl; intros s I H.
  - injection H as <-. lia.
  - destruct (step e s) as [s1|] eqn:S1; [|discriminate].
    pose proof (step_weight e s s1 I S1) as W.
    pose proof (IH s1 (inv_step e s s1 I S1) H) as B.
    destruct (quiet e); simpl; lia.
Qed.

Lemma pagesWeight_count (ps : list (list Buffer)) :
  pagesWeight ps = (4 * List.length (List.concat ps) + 2 * List.length ps)%nat.
Proof.
  induction ps as [|p ps IH]; simpl; [reflexivity|].
  rewrite length_app, IH. lia.
Qed.

Lemma weight_create :
  weight create
  = (4 * List.length scannedKeys + 2 * List.length (scanPages store) + 4)%nat.
Proof.
  unfold weight, scanWeight, scannedKeys. simpl. rewrite pagesWeight_count. lia.
Qed.

(** ** [parseInt] on the decimal print of an integer *)

Lemma of_uint_acc_value (d : Decimal.uint) (acc : positive) :
  Z.pos (Pos.of_uint_acc d acc) = uintValue d (Z.pos acc).
Proof.
  revert acc. induction d; intros acc;
    cbn [Pos.of_uint_acc uintValue]; try reflexivity;
    rewrite IHd; f_equal; lia.
Qed.

Lemma of_uint_value (d : Decimal.uint) :
  Z.of_N (Pos.of_uint d) = uintValue d 0.
Proof.
  induction d; cbn [Pos.of_uint uintValue]; try reflexivity; try exact IHd;
    cbn [Z.of_N]; rewrite of_uint_acc_value; reflexivity.
Qed.

Lemma parseInt_unsigned (d : Decimal.uint) (rest : string) :
  d <> Decimal.Nil ->
  JS.parseInt (NilEmpty.string_of_uint d ++ rest)
  = option_map JS.toDouble (JS.readDigits (NilEmpty.string_of_uint d ++ rest) None).
Proof.
  intros N. unfold JS.parseInt.
  destruct d; try contradiction; reflexivity.
Qed.

Lemma parseInt_minus (r : string) :
  JS.parseInt (String "-" r)
  = option_map (fun m => JS.toDouble (- m)) (JS.readDigits r None).
Proof. reflexivity. Qed.

Lemma trimStart_app_white (ws s : string) :
  allWhiteSpace ws = true -> JS.trimStart (ws ++ s) = JS.trimStart s.
Proof.
  induction ws as [|c ws IH]; simpl; intros H; [reflexivity|].
  apply andb_prop in H as [Hc Hw]. rewrite Hc. now apply IH.
Qed.

Lemma parseInt_app_white (ws s : string) :
  allWhiteSpace ws = true -> JS.parseInt (ws ++ s) = JS.parseInt s.
Proof.
  intros H. unfold JS.parseInt. now rewrite trimStart_app_white.
Qed.

Lemma readDigits_stop (rest : string) (acc : option Z) :
  noLeadingDigit rest = true -> JS.readDigits rest acc = acc.
Proof.
  destruct rest as [|c r]; simpl; [reflexivity|].
  destruct (JS.digit c); [discriminate|reflexivity].
Qed.

Lemma readDigits_uint_app (d : Decimal.uint) (rest : string) (a : Z) :
  JS.readDigits (NilEmpty.string_of_uint d ++ rest) (Some a)
  = JS.readDigits rest (Some (uintValue d a)).
Proof.
  revert a. induction d; intros a;
    cbn [NilEmpty.string_of_uint append JS.readDigits uintValue]; try reflexivity;
    match goal with |- context [JS.digit ?c] =>
      let v := eval vm_compute in (JS.digit c) in change (JS.digit c) with v
    end; cbv iota; rewrite IHd; do 3 f_equal; lia.
Qed.

Lemma readDigits_uint_start_app (d : Decimal.uint) (rest : string) :
  d <> Decimal.Nil ->
  JS.readDigits (NilEmpty.string_of_uint d ++ rest) None
  = JS.readDigits rest (Some (uintValue d 0)).
Proof.
  destruct d; intros N; try contradiction;
    cbn [NilEmpty.string_of_uint append JS.readDigits uintValue];
    match goal with |- context [JS.digit ?c] =>
      let v := eval vm_compute in (JS.digit c) in change (JS.digit c) with v
    end; cbv iota; rewrite readDigits_uint_app; reflexivity.
Qed.

Lemma nilzero_nilempty (p : positive) :
  NilZero.string_of_uint (Pos.to_uint p) = NilEmpty.string_of_uint (Pos.to_uint p).
Proof.
  pose proof (DecimalPos.Unsigned.to_uint_nonnil p) as N.
  destruct (Pos.to_uint p); try reflexivity; contradiction.
Qed.

Lemma uintValue_to_uint (p : positive) : uintValue (Pos.to_uint p) 0 = Z.pos p.
Proof.
  rewrite <- of_uint_value, DecimalPos.Unsigned.of_to. reflexivity.
Qed.

(** The text of an integer followed by something that is no digit parses
    to the number value of the integer. *)
Lemma parseInt_decimal_app (z : Z) (rest : string) :
  noLeadingDigit rest = true ->
  JS.parseInt (decimal z ++ rest) = Some (JS.toDouble z).
Proof.
  intros H. destruct z as [|p|p].
  - change (decimal 0) with (NilEmpty.string_of_uint (Decimal.D0 Decimal.Nil)).
    rewrite parseInt_unsigned by discriminate.
    rewrite readDigits_uint_start_app by discriminate.
    rewrite readDigits_stop by exact H. reflexivity.
  - pose proof (DecimalPos.Unsigned.to_uint_nonnil p) as N.
    change (decimal (Z.pos p)) with (NilZero.string_of_uint (Pos.to_uint p)).
    rewrite nilzero_nilempty, parseInt_unsigned by exact N.
    rewrite readDigits_uint_start_app by exact N.
    rewrite readDigits_stop by exact H. simpl.
    now rewrite uintValue_to_uint.
  - pose proof (DecimalPos.Unsigned.to_uint_nonnil p) as N.
    change (decimal (Z.neg p) ++ rest)%string
      with (String "-" (NilZero.string_of_uint (Pos.to_uint p) ++ rest)).
    rewrite nilzero_nilempty, parseInt_minus, readDigits_uint_start_app by exact N.
    rewrite readDigits_stop by exact H. simpl.
    now rewrite uintValue_to_uint.
Qed.

Lemma parseInt_decimal (z : Z) : JS.parseInt (decimal z) = Some (JS.toDouble z).
Proof.
  rewrite <- (parseInt_decimal_app z EmptyString eq_refl).
  now rewrite append_empty.
Qed.

Lemma parseInt_decimal_safe (z : Z) :
  safeInteger z -> JS.parseInt (decimal z) = Some z.
Proof. intros H. now rewrite parseInt_decimal, toDouble_exact. Qed.

(** ** The serialization *)

Lemma handled_cases (type : string) :
  handled type = true ->
  type = "string" \/ type = "list" \/ type = "set" \/ type = "zset" \/ type = "hash".
Proof.
  unfold handled. intros H.
  repeat (apply orb_prop in H as [H|H]); apply String.eqb_eq in H; auto 6.
Qed.

Lemma unhandled_typeCommands (key : Buffer) (type : string) (value : Value) :
  handled type = false -> typeCommands key type value = [].
Proof.
  unfold handled, typeCommands. intros H.
  repeat (apply orb_false_elim in H as [H ?]).
  repeat match goal with E : String.eqb _ _ = false |- _ => rewrite E; clear E end.
  reflexivity.
Qed.

Lemma expireCommands_cases (key : Buffer) (ttl : string) :
  (exists n, JS.parseInt ttl = Some n /\ n <> -1
             /\ expireCommands key ttl = [mkCommand "EXPIRE" [ABuf key; ANum n]])
  \/ ((JS.parseInt ttl = None \/ JS.parseInt ttl = Some (-1))
      /\ expireCommands key ttl = []).
Proof.
  unfold expireCommands. destruct (JS.parseInt ttl) as [n|]; [|right; auto].
  destruct (Z.eqb_spec n (-1)) as [->|N]; simpl.
  - right. auto.
  - left. exists n. auto.
Qed.

Lemma rev_withScores (ps : list (Buffer * Buffer)) :
  rev (withScores ps) = scoreMember (rev ps).
Proof.
  unfold withScores, scoreMember. induction ps as [|p ps IH]; [reflexivity|].
  simpl. rewrite IH, flat_map_app. simpl. now rewrite <- app_assoc.
Qed.

(** C2 (amended): for a zset key the whole flat reply of the store is
    reversed before the ZADD frame is built.  Every pair thereby comes out
    as score, member, and the pairs come out in the reverse of the
    store's ranking order: the last-ranked member is the first argument
    pair of ZADD and the first-ranked member the last. *)
Theorem zset_reverses_whole_reply
  (key : Buffer) (ps : list (Buffer * Buffer)) (ttl : string) :
  outputCommands key "zset" (VList (withScores ps)) ttl
  = ([mkCommand "DEL" [ABuf key];
      mkCommand "ZADD" (ABuf key :: map ABuf (scoreMember (rev ps)))]
     ++ expireCommands key ttl)%list.
Proof.
  unfold outputCommands, typeCommands. simpl. now rewrite rev_withScores.
Qed.

(** C3 (amended): the EXPIRE frame is appended, after the frames of the
    type, exactly when [parseInt] of the ttl yields a number other than -1,
    negative ones included, and it carries that number; a ttl of -1 and a
    ttl on which [parseInt] yields [NaN] append nothing.  On the text of
    an integer [t] of at most 2^53 in magnitude the frame is appended
    exactly when [t] is not -1, and it carries [t]. *)
Theorem expire_iff_ttl_parses_and_differs_from_minus_one
  (key : Buffer) (type : string) (value : Value) (ttl : string) :
  outputCommands key type value ttl
  = (typeCommands key type value ++ expireCommands key ttl)%list
  /\ (forall n, expireCommands key ttl = [mkCommand "EXPIRE" [ABuf key; ANum n]]
                <-> JS.parseInt ttl = Some n /\ n <> -1)
  /\ (expireCommands key ttl = []
      <-> JS.parseInt ttl = None \/ JS.parseInt ttl = Some (-1))
  /\ (forall t, safeInteger t ->
                expireCommands key (decimal t)
                = if t =? -1 then [] else [mkCommand "EXPIRE" [ABuf key; ANum t]]).
Proof.
  split; [reflexivity|]. split; [|split].
  - intros n. destruct (expireCommands_cases key ttl)
      as [(m & P & N & E)|([P|P] & E)]; rewrite E, P; split.
    + intros H. injection H as ->. auto.
    + intros [H _]. now injection H as ->.
    + discriminate.
    + intros [H _]. discriminate.
    + discriminate.
    + intros [H N]. injection H as <-. contradiction.
  - destruct (expireCommands_cases key ttl)
      as [(m & P & N & E)|([P|P] & E)]; rewrite E, P; split; auto;
      try discriminate.
    intros [H|H]; [discriminate|]. injection H as ->. contradiction.
  - intros t S. unfold expireCommands. rewrite parseInt_decimal_safe by exact S.
    now destruct (t =? -1).
Qed.

Lemma frames_shape (key : Buffer) (type : string) (value : Value) (ttl : string) :
  handled type = true ->
  exists insert expire,
    outputCommands key type value ttl
    = ((if String.eqb type "string" then [insert]
        else [mkCommand "DEL" [ABuf key]; insert]) ++ expire)%list
    /\ (if String.eqb type "string" then name insert = "SET"
        else In (name insert) ["RPUSH"; "SADD"; "ZADD"; "HMSET"])
    /\ hd_error (args insert) = Some (ABuf key)
    /\ (expire = [] \/ exists n, expire = [mkCommand "EXPIRE" [ABuf key; ANum n]]).
Proof.
  intros H. unfold outputCommands.
  assert (X : expireCommands key ttl = []
              \/ exists n, expireCommands key ttl
                           = [mkCommand "EXPIRE" [ABuf key; ANum n]]).
  { destruct (expireCommands_cases key ttl) as [(n & _ & _ & E)|(_ & E)];
      [right; now exists n | now left]. }
  destruct (handled_cases type H) as [-> | [-> | [-> | [-> | ->]]]];
    unfold typeCommands; simpl; eexists; eexists;
    (split; [reflexivity|]); simpl; auto 7.
Qed.

Lemma loadValue_fulfilled (key : Buffer) (type : string) (value : option Value) :
  loadValue key type = Fulfilled value -> handled type = true.
Proof.
  unfold loadValue, handled.
  repeat match goal with |- context [String.eqb type ?x] =>
    destruct (String.eqb type x); [intros _; now rewrite ?orb_true_r|] end.
  discriminate.
Qed.

Lemma loadValue_unhandled (key : Buffer) (type : string) :
  handled type = false -> loadValue key type = Rejected "Unhandled type".
Proof.
  unfold handled, loadValue. intros H.
  repeat (apply orb_false_elim in H as [H ?]).
  repeat match goal with E : String.eqb _ _ = false |- _ => rewrite E; clear E end.
  reflexivity.
Qed.

Lemma resolution_fulfilled (key bytes : Buffer) :
  resolution key = Fulfilled bytes ->
  exists type value ttl,
    typeOf store key = Fulfilled type /\ loadValue key type = Fulfilled value
    /\ ttlOf store key = Fulfilled ttl
    /\ bytes = outputProtocol key type (written value) ttl.
Proof.
  unfold resolution, bind.
  destruct (typeOf store key) as [type|]; [|discriminate].
  destruct (loadValue key type) as [value|] eqn:L; [|discriminate].
  destruct (ttlOf store key) as [ttl|]; [|discriminate].
  intros H. injection H as <-. exists type, value, ttl. auto.
Qed.

Lemma rejection_in_errors (key : Buffer) (err : string) (s : RedisDumper) :
  Inv s -> resolution key = Rejected err -> In key (settled s) ->
  In err (rejections s) /\ In err (errors s).
Proof.
  intros I R H.
  assert (X : In err (rejections s)).
  { unfold rejections. apply in_flat_map. exists key. split; [assumption|].
    unfold rejectedOf. rewrite R. now left. }
  split; [exact X|]. eapply il_in_left; [apply (inv_errors s I) | exact X].
Qed.

(** C1 (amended): for a key whose type is not one of the five handled
    kinds, [loadValue] throws "Unhandled type": the resolution of the key is
    rejected, the error is emitted on the stream, nothing is pushed for the
    key and the in-flight counter is not decremented.  From then on the
    session holds the error and never emits the end of the stream. *)
Theorem unhandled_type_fails_session
  (key : Buffer) (type : string) (s : RedisDumper) :
  typeOf store key = Fulfilled type ->
  handled type = false ->
  loadValue key type = Rejected "Unhandled type"
  /\ resolution key = Rejected "Unhandled type"
  /\ settle key s = emitError "Unhandled type" s
  /\ pushed (settle key s) = pushed s
  /\ errors (settle key s) = (errors s ++ ["Unhandled type"])%list
  /\ dumping (settle key s) = dumping s
  /\ (forall es s', run es create = Some s' -> In key (settled s') ->
        In "Unhandled type" (errors s') /\ ended s' = false).
Proof.
  intros T H.
  assert (L : loadValue key type = Rejected "Unhandled type")
    by now apply loadValue_unhandled.
  assert (R : resolution key = Rejected "Unhandled type").
  { unfold resolution, bind. now rewrite T, L. }
  split; [exact L|]. split; [exact R|].
  unfold settle. rewrite R. do 4 (split; [reflexivity|]).
  intros es s' Rn Hk.
  assert (I : Inv s') by (apply inv_reachable; now exists es).
  destruct (rejection_in_errors key _ s' I R Hk) as [X Y].
  split; [exact Y|]. apply no_end_after_rejection; [exact I|].
  intros Z0. now rewrite Z0 in X.
Qed.

(** C5: a key that resolves to a handled type contributes one chunk, the
    concatenation of its frames in a fixed order: for a string the SET
    frame, for the other types the DEL frame and then the bulk-insert
    frame (RPUSH, SADD, ZADD or HMSET), every frame on the key, and the
    EXPIRE frame, when there is one, last. *)
Theorem key_contributes_one_ordered_run
  (key bytes : Buffer) (s : RedisDumper) :
  resolution key = Fulfilled bytes ->
  exists type value ttl insert expire,
    typeOf store key = Fulfilled type /\ handled type = true
    /\ outputCommands key type value ttl
       = ((if String.eqb type "string" then [insert]
           else [mkCommand "DEL" [ABuf key]; insert]) ++ expire)%list
    /\ (if String.eqb type "string" then name insert = "SET"
        else In (name insert) ["RPUSH"; "SADD"; "ZADD"; "HMSET"])
    /\ hd_error (args insert) = Some (ABuf key)
    /\ (expire = [] \/ exists n, expire = [mkCommand "EXPIRE" [ABuf key; ANum n]])
    /\ bytes = JS.concat (map toWritable (outputCommands key type value ttl))
    /\ pushed (settle key s) = (pushed s ++ [Data bytes])%list.
Proof.
  intros R. destruct (resolution_fulfilled key bytes R)
    as (type & value & ttl & T & L & _ & B).
  pose proof (loadValue_fulfilled key type value L) as H.
  destruct (frames_shape key type (written value) ttl H)
    as (insert & expire & F & N & A & E).
  exists type, (written value), ttl, insert, expire.
  repeat (split; [assumption|]).
  unfold settle. now rewrite R.
Qed.

Lemma replay_del_rpush
  (key : Buffer) (es : list Buffer) (cs : list Command) (before : list Arg) :
  replayAll key
    ([mkCommand "DEL" [ABuf key]; mkCommand "RPUSH" (ABuf key :: map ABuf es)]
     ++ cs)%list before
  = replayAll key cs (map ABuf es).
Proof.
  assert (D : replayList key before (mkCommand "DEL" [ABuf key]) = Some []).
  { unfold replayList. simpl. now rewrite String.eqb_refl. }
  assert (P : replayList key [] (mkCommand "RPUSH" (ABuf key :: map ABuf es))
              = Some (map ABuf es)).
  { unfold replayList. simpl. now rewrite String.eqb_refl. }
  unfold replayAll. cbn [app fold_left]. now rewrite D, P.
Qed.

Lemma replay_list_frames (key : Buffer) (es : list Buffer) (ttl : string)
  (before : list Arg) :
  replayAll key (outputCommands key "list" (VList es) ttl) before
  = match JS.parseInt ttl with
    | None => Some (map ABuf es)
    | Some n =>
        if (n =? -1) || (0 <? n) then Some (map ABuf es)
        else if - 9007199254740992 <=? n then Some []
        else None
    end.
Proof.
  unfold outputCommands, typeCommands.
  cbn [String.eqb Ascii.eqb Bool.eqb spread]. rewrite replay_del_rpush.
  unfold expireCommands. destruct (JS.parseInt ttl) as [n|]; [|reflexivity].
  destruct (Z.eqb_spec n (-1)) as [->|N]; [reflexivity|].
  cbn [negb orb]. unfold replayAll. cbn [fold_left]. unfold replayList. simpl.
  now rewrite String.eqb_refl.
Qed.

(** C7 (amended): for a list key with elements e1..en the frames are DEL
    key and then one RPUSH key e1 ... en, the elements in the order of the
    list, followed only by the optional EXPIRE frame; the pipeline pushes
    their concatenation.  Replaying DEL and RPUSH leaves exactly e1..en, in
    that order, at the key.  Replaying all the frames leaves them when
    there is no EXPIRE frame or its number is positive; when its number is
    zero or negative, as for a ttl of 0 or -2, the replay removes the key.
    For a list that is not empty the replay rebuilds it exactly when the
    ttl does not parse, parses to -1 or parses to a positive number. *)
Theorem list_frames_keep_order
  (key : Buffer) (es : list Buffer) (ttl : string) :
  outputCommands key "list" (VList es) ttl
  = ([mkCommand "DEL" [ABuf key]; mkCommand "RPUSH" (ABuf key :: map ABuf es)]
     ++ expireCommands key ttl)%list
  /\ (typeOf store key = Fulfilled "list" ->
      lrangeBuffer store key = Fulfilled es ->
      ttlOf store key = Fulfilled ttl ->
      resolution key
      = Fulfilled (JS.concat (map toWritable
          ([mkCommand "DEL" [ABuf key]; mkCommand "RPUSH" (ABuf key :: map ABuf es)]
           ++ expireCommands key ttl)%list)))
  /\ (forall before,
        replayAll key
          [mkCommand "DEL" [ABuf key]; mkCommand "RPUSH" (ABuf key :: map ABuf es)]
          before
        = Some (map ABuf es))
  /\ (forall before,
        replayAll key (outputCommands key "list" (VList es) ttl) before
        = match JS.parseInt ttl with
          | None => Some (map ABuf es)
          | Some n =>
              if (n =? -1) || (0 <? n) then Some (map ABuf es)
              else if - 9007199254740992 <=? n then Some []
              else None
          end)
  /\ (es <> [] ->
      (specReplayKeeps key es ttl
       <-> JS.parseInt ttl = None
           \/ exists n, JS.parseInt ttl = Some n /\ (n = -1 \/ 0 < n))).
Proof.
  split; [reflexivity|]. split; [|split; [|split]].
  - intros T L X. unfold resolution, bind. rewrite T. unfold loadValue. simpl.
    unfold bind. now rewrite L, X.
  - intros before.
    rewrite <- (app_nil_r [mkCommand "DEL" [ABuf key];
                           mkCommand "RPUSH" (ABuf key :: map ABuf es)]).
    now rewrite replay_del_rpush.
  - intros before. apply replay_list_frames.
  - intros Ne. unfold specReplayKeeps. split.
    + intros H. specialize (H []). rewrite replay_list_frames in H.
      destruct (JS.parseInt ttl) as [n|]; [right|now left].
      exists n. split; [reflexivity|].
      destruct (Z.eqb_spec n (-1)) as [E|N]; [now left|].
      destruct (Z.ltb_spec 0 n) as [P|P]; [now right|]. simpl in H.
      destruct (- 9007199254740992 <=? n); [|discriminate].
      injection H as H. destruct es; [contradiction|discriminate].
    + intros H before. rewrite replay_list_frames.
      destruct H as [->|(n & -> & [-> | P])]; [reflexivity|reflexivity|].
      apply Z.ltb_lt in P. rewrite P. now rewrite orb_true_r.
Qed.

(** C10: called with a type outside the five handled kinds, the
    serialization takes nothing from the type dispatch; when [parseInt]
    of the ttl yields an integer other than -1 the result is the lone
    EXPIRE key ttl frame, and when it yields -1 or [NaN] the result is
    the empty buffer. *)
Theorem unhandled_type_serializes_expire_only
  (key : Buffer) (type : string) (value : Value) (ttl : string) :
  handled type = false ->
  typeCommands key type value = []
  /\ (forall n, JS.parseInt ttl = Some n -> n <> -1 ->
        outputCommands key type value ttl = [mkCommand "EXPIRE" [ABuf key; ANum n]]
        /\ outputProtocol key type value ttl
           = toWritable (mkCommand "EXPIRE" [ABuf key; ANum n]))
  /\ (JS.parseInt ttl = Some (-1) \/ JS.parseInt ttl = None ->
        outputCommands key type value ttl = []
        /\ outputProtocol key type value ttl = EmptyString).
Proof.
  intros H. pose proof (unhandled_typeCommands key type value H) as T.
  split; [exact T|]. unfold outputProtocol, outputCommands. rewrite T. simpl.
  unfold expireCommands. split.
  - intros n P N. rewrite P. destruct (Z.eqb_spec n (-1)); [contradiction|].
    simpl. split; [reflexivity|]. apply append_empty.
  - intros [P|P]; rewrite P; simpl; auto.
Qed.

(** ** Counting what has been pushed *)


Lemma filter_data_fulfilled (l : list Buffer) :
  filter (fun c => negb (isEnd c)) (flat_map fulfilledOf l) = flat_map fulfilledOf l.
Proof.
  induction l as [|k l IH]; simpl; [reflexivity|].
  rewrite filter_app, IH. f_equal. unfold fulfilledOf.
  destruct (resolution k); reflexivity.
Qed.

Lemma settled_split (l : list Buffer) :
  (List.length (flat_map fulfilledOf l) + List.length (flat_map rejectedOf l))%nat
  = List.length l.
Proof.
  induction l as [|k l IH]; simpl; [reflexivity|].
  rewrite !length_app. unfold fulfilledOf at 1, rejectedOf at 1.
  destruct (resolution k); simpl; lia.
Qed.


Lemma dataCount_settled (s : RedisDumper) :
  Inv s -> dataCount s = List.length (flat_map fulfilledOf (settled s)).
Proof.
  intros I. unfold dataCount. rewrite (inv_pushed s I), filter_app.
  rewrite filter_data_fulfilled, length_app. destruct (ended s); simpl; lia.
Qed.

Lemma dumping_balance (s : RedisDumper) :
  Inv s ->
  0 <= dumping s
  /\ dumping s = Z.of_nat (startedCount s) - Z.of_nat (dataCount s).
Proof.
  intros I. pose proof (inv_dumping s I) as Hd. split; [lia|].
  rewrite (dataCount_settled s I). unfold startedCount.
  pose proof (settled_split (settled s)) as Sp.
  unfold rejections in Hd. lia.
Qed.

Lemma dataCount_superPush_Data (b : Buffer) (s : RedisDumper) :
  dataCount (superPush (Data b) s) = S (dataCount s).
Proof.
  unfold dataCount. simpl. rewrite filter_app, length_app. simpl. lia.
Qed.

Lemma nextKey_counts (s : RedisDumper) :
  (dumping (nextKey s) = dumping s + 1
   /\ startedCount (nextKey s) = S (startedCount s)
   /\ dataCount (nextKey s) = dataCount s)
  \/ (dumping (nextKey s) = dumping s
      /\ startedCount (nextKey s) = startedCount s
      /\ dataCount (nextKey s) = dataCount s).
Proof.
  unfold nextKey. destruct (JS.pop (keys s)) as [[k r]|].
  - left. unfold startedCount, dataCount. simpl. rewrite length_app. simpl.
    repeat split. lia.
  - right. destruct (scanStream s) as [st|]; [|repeat split].
    destruct (negb (scanDrained s) && paused st); [repeat split|].
    destruct (scanDrained s && (dumping s =? 0)); [|repeat split].
    unfold startedCount, dataCount. simpl. rewrite filter_app. simpl.
    rewrite app_nil_r. repeat split.
Qed.


Lemma ended_all_settled (s : RedisDumper) :
  Inv s -> ended s = true ->
  Permutation scannedKeys (settled s)
  /\ pushed s = (flat_map fulfilledOf (settled s) ++ [End])%list.
Proof.
  intros I E. destruct (inv_ended s I E) as (D & _ & K & P & _). split.
  - pose proof (inv_keys s I) as Hk. rewrite K, P in Hk.
    pose proof (inv_scan s I) as Hs. unfold scanShape in Hs.
    unfold remainingPages in Hk. destruct (scanStream s) as [st|].
    + destruct Hs as (H1 & _ & H4). rewrite H4 in Hk by congruence.
      simpl in Hk. now rewrite app_nil_r in Hk.
    + destruct Hs as (H1 & _). congruence.
  - rewrite (inv_pushed s I) at 1. now rewrite E.
Qed.

Lemma flat_map_nil {A B} (f : A -> list B) (l : list A) :
  (forall x, In x l -> f x = []) -> flat_map f l = [].
Proof.
  induction l as [|x l IH]; simpl; intros H; [reflexivity|].
  rewrite (H x) by now left. apply IH. intros y Hy. apply H. now right.
Qed.

Lemma nextKey_keeps (s : RedisDumper) :
  settled (nextKey s) = settled s
  /\ errors (nextKey s) = errors s
  /\ faults (nextKey s) = faults s.
Proof.
  unfold nextKey. destruct (JS.pop (keys s)) as [[k r]|]; [now repeat split|].
  destruct (scanStream s) as [st|]; [|now repeat split].
  destruct (negb (scanDrained s) && paused st); [now repeat split|].
  destruct (scanDrained s && (dumping s =? 0)); now repeat split.
Qed.

(** What an event adds to the settled keys and to the faults. *)
Lemma step_settled (e : Event) (s s' : RedisDumper) :
  step e s = Some s' ->
  settled s' = (settled s ++ completions [e] s)%list
  /\ faults s' = (faults s ++ faultEvents [e])%list.
Proof.
  intros S1. cbn [completions faultEvents flat_map]. rewrite S1, !app_nil_r.
  destruct e as [ | | |i|msg]; simpl in S1.
  - destruct (ended s); [discriminate|]. destruct (reading s); [discriminate|].
    injection S1 as <-. rewrite !app_nil_r. unfold _read.
    match goal with |- context [nextKey ?x] =>
      destruct (nextKey_keeps x) as (H1 & _ & H2) end.
    now rewrite H1, H2.
  - destruct (scanStream s) as [[[] [|batch rest] []]|]; try discriminate.
    injection S1 as <-. rewrite !app_nil_r. unfold onScanData. simpl.
    match goal with |- context [nextKey ?x] =>
      destruct (nextKey_keeps x) as (H1 & _ & H2) end.
    now rewrite H1, H2.
  - destruct (scanStream s) as [[pa [|batch rest] []]|]; try discriminate.
    injection S1 as <-. rewrite !app_nil_r. unfold onScanEnd.
    match goal with |- context [nextKey ?x] =>
      destruct (nextKey_keeps x) as (H1 & _ & H2) end.
    now rewrite H1, H2.
  - destruct (nth_error (pending s) i) as [k|]; [|discriminate].
    injection S1 as <-. rewrite app_nil_r. unfold settle.
    destruct (resolution k); split; reflexivity.
  - destruct (scanStream s); [|discriminate]. injection S1 as <-.
    rewrite app_nil_r. split; reflexivity.
Qed.

Lemma completions_run (es : list Event) (s s' : RedisDumper) :
  run es s = Some s' ->
  settled s' = (settled s ++ completions es s)%list
  /\ faults s' = (faults s ++ faultEvents es)%list.
Proof.
  revert s. induction es as [|e es IH]; simpl; intros s R.
  - injection R as <-. now rewrite !app_nil_r.
  - destruct (step e s) as [s1|] eqn:S1; [|discriminate].
    destruct (IH s1 R) as [H1 H2]. destruct (step_settled e s s1 S1) as [G1 G2].
    cbn [completions] in G1. rewrite S1, app_nil_r in G1.
    rewrite H1, H2, G1, G2. unfold faultEvents. cbn [flat_map].
    now rewrite !app_assoc, !app_nil_r.
Qed.


Lemma rejectedOf_nil_fulfilled (key : Buffer) :
  rejectedOf key = [] -> exists bytes, resolution key = Fulfilled bytes.
Proof.
  unfold rejectedOf. destruct (resolution key) as [b|e]; [|discriminate].
  intros _. now exists b.
Qed.

Lemma flat_map_nil_inv {A B} (f : A -> list B) (l : list A) :
  flat_map f l = [] -> forall x, In x l -> f x = [].
Proof.
  induction l as [|y l IH]; simpl; intros H x Hx; [contradiction|].
  apply app_eq_nil in H as [H1 H2]. destruct Hx as [<-|Hx]; auto.
Qed.

(** When no scanned key fails to resolve, no chain is ever rejected and
    every error on the stream is a fault. *)
Lemma no_rejection (s : RedisDumper) :
  Inv s ->
  (forall key, In key scannedKeys -> rejectedOf key = []) ->
  rejections s = [] /\ errors s = faults s.
Proof.
  intros I A.
  assert (Rj : rejections s = []).
  { unfold rejections. apply flat_map_nil. intros k Hk. apply A.
    eapply Permutation_in; [symmetry; apply (inv_keys s I)|].
    apply in_or_app. now left. }
  split; [exact Rj|]. pose proof (inv_errors s I) as He. rewrite Rj in He.
  now apply il_nil_l.
Qed.

Lemma rejections_nil_at_end (s : RedisDumper) :
  Inv s -> ended s = true -> rejections s = [].
Proof.
  intros I E. destruct (rejections s) eqn:Er; [reflexivity|].
  rewrite (no_end_after_rejection s I) in E; [discriminate|]. now rewrite Er.
Qed.

Lemma end_all_fulfilled (s : RedisDumper) :
  Inv s -> ended s = true ->
  forall key, In key scannedKeys -> exists bytes, resolution key = Fulfilled bytes.
Proof.
  intros I E key Hk. destruct (ended_all_settled s I E) as [Pm _].
  apply rejectedOf_nil_fulfilled.
  apply (flat_map_nil_inv rejectedOf (settled s)).
  - now apply (rejections_nil_at_end s).
  - eapply Permutation_in; eauto.
Qed.

(** A session in which no event is enabled but a fault, or the end of the
    scan on a paused stream, has ended or has met a failing chain; one
    without any error has ended. *)
Lemma at_rest (s : RedisDumper) :
  Inv s -> (forall e, regular e s = true -> step e s = None) ->
  (ended s = true \/ rejections s <> [])
  /\ (errors s = [] -> ended s = true).
Proof.
  intros I Q.
  assert (A : ended s = true \/ rejections s <> []).
  { destruct (ended s) eqn:E; [now left|right]. intros Rj.
    destruct (progress s I E Rj) as (e & s' & Qe & S1).
    rewrite (Q e Qe) in S1. discriminate. }
  split; [exact A|]. intros E. destruct A as [A|A]; [exact A|].
  destruct (errors_nil s I E) as [Rj _]. contradiction.
Qed.

Lemma total_bound (es : list Event) (s : RedisDumper) :
  run es create = Some s ->
  (List.length (filter quiet es) + weight s
   <= 4 * List.length scannedKeys + 2 * List.length (scanPages store) + 4)%nat.
Proof.
  intros R. rewrite <- weight_create. now apply quiet_bound; [apply inv_create|].
Qed.

(** ** The session *)

Lemma step_counts (e : Event) (s s' : RedisDumper) :
  step e s = Some s' ->
  (dumping s' = dumping s + 1
   /\ startedCount s' = S (startedCount s) /\ dataCount s' = dataCount s)
  \/ (dumping s' = dumping s - 1
      /\ startedCount s' = startedCount s /\ dataCount s' = S (dataCount s))
  \/ (dumping s' = dumping s
      /\ startedCount s' = startedCount s /\ dataCount s' = dataCount s).
Proof.
  destruct e as [ | | |i|msg]; simpl.
  - destruct (ended s); [discriminate|]. destruct (reading s); [discriminate|].
    intros H. injection H as <-. unfold _read.
    match goal with |- context [nextKey ?x] =>
      destruct (nextKey_counts x) as [H|H]; auto end.
  - destruct (scanStream s) as [[[] [|batch rest] []]|]; try discriminate.
    intros H. injection H as <-. unfold onScanData. simpl.
    match goal with |- context [nextKey ?x] =>
      destruct (nextKey_counts x) as [H|H]; auto end.
  - destruct (scanStream s) as [[pa [|batch rest] []]|]; try discriminate.
    intros H. injection H as <-. unfold onScanEnd.
    match goal with |- context [nextKey ?x] =>
      destruct (nextKey_counts x) as [H|H]; auto end.
  - destruct (nth_error (pending s) i) as [key|] eqn:N; [|discriminate].
    intros H. injection H as <-.
    destruct (nth_error_dropNth _ _ _ N) as [_ Ln].
    unfold settle. destruct (resolution key) as [bytes|err].
    + right. left. unfold push. rewrite dataCount_superPush_Data.
      unfold startedCount, dataCount. simpl. rewrite length_app, Ln. simpl.
      repeat split. lia.
    + right. right. unfold startedCount, dataCount. simpl.
      rewrite length_app, Ln. simpl. repeat split. lia.
  - destruct (scanStream s); [|discriminate]. intros H. injection H as <-.
    right. right. repeat split.
Qed.

(** C9: the counter [dumping] goes up by one when the resolution of a key
    starts and down by one only when bytes are pushed for a key; a
    resolution that fails leaves it as it is.  Throughout a session it is
    therefore not negative and it is the number of resolutions started
    minus the number of chunks pushed. *)
Theorem dumping_counts_resolutions_in_flight
  (es : list Event) (s : RedisDumper) :
  run es create = Some s ->
  0 <= dumping s
  /\ dumping s = Z.of_nat (startedCount s) - Z.of_nat (dataCount s)
  /\ (forall key,
        dumping (dumpKey key s) = dumping s + 1
        /\ startedCount (dumpKey key s) = S (startedCount s)
        /\ pushed (dumpKey key s) = pushed s)
  /\ (forall bytes,
        dumping (push bytes s) = dumping s - 1
        /\ pushed (push bytes s) = (pushed s ++ [Data bytes])%list)
  /\ (forall key err,
        resolution key = Rejected err ->
        dumping (settle key s) = dumping s
        /\ pushed (settle key s) = pushed s
        /\ errors (settle key s) = (errors s ++ [err])%list)
  /\ (forall e s',
        step e s = Some s' ->
        (dumping s' = dumping s + 1
         /\ startedCount s' = S (startedCount s) /\ dataCount s' = dataCount s)
        \/ (dumping s' = dumping s - 1
            /\ startedCount s' = startedCount s /\ dataCount s' = S (dataCount s))
        \/ (dumping s' = dumping s
            /\ startedCount s' = startedCount s /\ dataCount s' = dataCount s)).
Proof.
  intros R. assert (I : Inv s) by (apply inv_reachable; now exists es).
  destruct (dumping_balance s I) as [H0 H1].
  split; [exact H0|]. split; [exact H1|]. split; [|split; [|split]].
  - intros key. unfold startedCount. simpl. rewrite length_app. simpl.
    repeat split. lia.
  - intros bytes. split; reflexivity.
  - intros key err E. unfold settle. rewrite E. repeat split.
  - intros e s'. apply step_counts.
Qed.


Lemma output_of_settled (s : RedisDumper) :
  Inv s ->
  output s = JS.concat (map chunkBytes (flat_map fulfilledOf (settled s))).
Proof.
  intros I. unfold output. rewrite (inv_pushed s I), map_app, concat_app.
  destruct (ended s); simpl; apply append_empty.
Qed.

(** C8: when the scan yields no key, nothing but the end of the stream is
    ever pushed: the output is empty at every point of the session, no
    chain is rejected and the only errors are faults of the connection or
    of the scan stream.  While the stream has not ended and no fault has
    occurred, an event that is no fault is enabled, and the session has at
    most 2 p + 4 of them for p pages: the stream ends, and when the
    session has come to rest the chunks pushed are the end of the stream
    alone, an output of length zero. *)
Theorem empty_database_gives_empty_stream
  (es : list Event) (s : RedisDumper) :
  scannedKeys = [] ->
  run es create = Some s ->
  pushed s = (if ended s then [End] else [])
  /\ output s = EmptyString
  /\ rejections s = []
  /\ errors s = faults s
  /\ dumping s = 0
  /\ (ended s = false -> faults s = [] ->
      exists e s', regular e s = true /\ step e s = Some s')
  /\ (List.length (filter quiet es) + weight s
      <= 2 * List.length (scanPages store) + 4)%nat
  /\ (faults s = [] -> (forall e, regular e s = true -> step e s = None) ->
      ended s = true /\ pushed s = [End] /\ String.length (output s) = 0%nat).
Proof.
  intros Em R. assert (I : Inv s) by (apply inv_reachable; now exists es).
  assert (Se : settled s = [] /\ pending s = []).
  { pose proof (inv_keys s I) as Hk. rewrite Em in Hk.
    apply Permutation_nil in Hk. apply app_eq_nil in Hk as [H1 Hk].
    apply app_eq_nil in Hk as [H2 _]. auto. }
  destruct Se as [Se Pe].
  assert (Rj : rejections s = []) by (unfold rejections; now rewrite Se).
  assert (Pu : pushed s = if ended s then [End] else []).
  { rewrite (inv_pushed s I) at 1. now rewrite Se. }
  assert (Ou : output s = EmptyString).
  { rewrite (output_of_settled s I). now rewrite Se. }
  split; [exact Pu|]. split; [exact Ou|]. split; [exact Rj|].
  split; [|split; [|split; [|split]]].
  - pose proof (inv_errors s I) as He. rewrite Rj in He. now apply il_nil_l.
  - rewrite (inv_dumping s I), Rj, Pe. reflexivity.
  - intros E _. now apply progress.
  - pose proof (total_bound es s R) as B. rewrite Em in B. simpl in B. lia.
  - intros _ Q. destruct (at_rest s I Q) as [[E|N] _]; [|contradiction].
    rewrite Pu, Ou, E. auto.
Qed.

(** C6: when the scan yields the single key k, k is a string of value v
    and its ttl is -1, the output of the session is empty until the key
    is resolved and is encode(SET, [k, v]) from then on; no chain is
    rejected and the only errors are faults of the connection or of the
    scan stream.  While the stream has not ended and no fault has
    occurred, an event that is no fault is enabled, and the session has at
    most 2 p + 8 of them for p pages: the stream ends, and when the
    session has come to rest the chunks pushed are that frame and the end
    of the stream, the whole output being exactly encode(SET, [k, v]). *)
Theorem single_string_key_gives_one_set_frame
  (k v : Buffer) (es : list Event) (s : RedisDumper) :
  scannedKeys = [k] ->
  typeOf store k = Fulfilled "string" ->
  getBuffer store k = Fulfilled (Some v) ->
  ttlOf store k = Fulfilled "-1" ->
  run es create = Some s ->
  rejections s = []
  /\ errors s = faults s
  /\ (output s = EmptyString
      \/ output s = toWritable (mkCommand "SET" [ABuf k; ABuf v]))
  /\ (ended s = true ->
      pushed s = [Data (toWritable (mkCommand "SET" [ABuf k; ABuf v])); End]
      /\ output s = toWritable (mkCommand "SET" [ABuf k; ABuf v]))
  /\ (ended s = false -> faults s = [] ->
      exists e s', regular e s = true /\ step e s = Some s')
  /\ (List.length (filter quiet es) + weight s
      <= 2 * List.length (scanPages store) + 8)%nat
  /\ (faults s = [] -> (forall e, regular e s = true -> step e s = None) ->
      pushed s = [Data (toWritable (mkCommand "SET" [ABuf k; ABuf v])); End]
      /\ output s = toWritable (mkCommand "SET" [ABuf k; ABuf v])).
Proof.
  intros Sk T G X R. assert (I : Inv s) by (apply inv_reachable; now exists es).
  set (frame := toWritable (mkCommand "SET" [ABuf k; ABuf v])).
  assert (Re : resolution k = Fulfilled frame).
  { unfold resolution, bind. rewrite T. unfold loadValue. simpl. unfold bind.
    rewrite G, X. unfold outputProtocol, outputCommands. simpl.
    now rewrite append_empty. }
  assert (Se : settled s = [] \/ settled s = [k]).
  { pose proof (inv_keys s I) as Hk. rewrite Sk in Hk.
    apply Permutation_length_1_inv in Hk.
    destruct (settled s) as [|x l]; [now left|right].
    simpl in Hk. injection Hk as -> Hk.
    apply app_eq_nil in Hk as [-> _]. reflexivity. }
  assert (NR : rejections s = [] /\ errors s = faults s).
  { apply no_rejection; [exact I|]. intros key Hk. rewrite Sk in Hk.
    destruct Hk as [<-|[]]. unfold rejectedOf. now rewrite Re. }
  assert (En : ended s = true -> pushed s = [Data frame; End] /\ output s = frame).
  { intros E. destruct (ended_all_settled s I E) as [Pm Pu].
    rewrite Sk in Pm. apply Permutation_length_1_inv in Pm.
    rewrite (output_of_settled s I), Pu, Pm. simpl.
    unfold fulfilledOf. rewrite Re. simpl. split; [reflexivity|].
    unfold JS.concat. simpl. apply append_empty. }
  split; [apply NR|]. split; [apply NR|].
  split; [|split; [|split; [|split]]].
  - rewrite (output_of_settled s I).
    destruct Se as [-> | ->]; simpl; [now left|right].
    unfold fulfilledOf. rewrite Re. simpl. unfold JS.concat. simpl.
    apply append_empty.
  - exact En.
  - intros E _. apply progress; [exact I | exact E | apply NR].
  - pose proof (total_bound es s R) as B. rewrite Sk in B. simpl in B. lia.
  - intros _ Q. destruct (at_rest s I Q) as [[E|N] _]; [now apply En|].
    destruct NR as [NR _]. contradiction.
Qed.

(** ** Further properties of the session *)


(** X2: when the resolution of some scanned key is rejected, the session
    never pushes the end of the stream.  Until an error is emitted some
    event that is no fault is enabled, and the session has at most
    4 n + 2 p + 4 such events: a session that has come to rest has emitted
    an error, and the error of the key is on the stream once its chain has
    settled. *)
Theorem failing_key_blocks_end
  (key : Buffer) (err : string) (es : list Event) (s : RedisDumper) :
  In key scannedKeys ->
  resolution key = Rejected err ->
  run es create = Some s ->
  ended s = false
  /\ (errors s = [] -> exists e s', regular e s = true /\ step e s = Some s')
  /\ (List.length (filter quiet es) + weight s
      <= 4 * List.length scannedKeys + 2 * List.length (scanPages store) + 4)%nat
  /\ ((forall e, regular e s = true -> step e s = None) -> errors s <> [])
  /\ (In key (settled s) -> In err (errors s)).
Proof.
  intros Hk Re R. assert (I : Inv s) by (apply inv_reachable; now exists es).
  assert (E : ended s = false).
  { destruct (ended s) eqn:E; [|reflexivity].
    destruct (end_all_fulfilled s I E key Hk) as [b Hb]. congruence. }
  split; [exact E|]. split.
  { intros Er. apply progress; [exact I | exact E |].
    now destruct (errors_nil s I Er). }
  split; [now apply total_bound|]. split.
  - intros Q Er. destruct (at_rest s I Q) as [_ F]. rewrite (F Er) in E.
    discriminate E.
  - intros H. now destruct (rejection_in_errors key err s I Re H).
Qed.


(** X6: the in-flight counter never exceeds the number of keys that the scan
    yields, and it is never below the number of chains still pending. *)
Theorem dumping_bounded_by_scanned (es : list Event) (s : RedisDumper) :
  run es create = Some s ->
  Z.of_nat (List.length (pending s)) <= dumping s
  /\ dumping s <= Z.of_nat (List.length scannedKeys).
Proof.
  intros R. assert (I : Inv s) by (apply inv_reachable; now exists es).
  pose proof (inv_dumping s I) as Hd. split; [lia|].
  pose proof (settled_split (settled s)) as Sp. unfold rejections in Hd.
  pose proof (inv_keys s I) as Pm. apply Permutation_length in Pm.
  rewrite !length_app in Pm. lia.
Qed.

(** X13: the chunks come out in the order in which the resolutions
    complete: the chunks pushed are the serializations of the keys settled
    by the [Settle] events, in the order of those events, whatever the order
    in which the scan yielded the keys.  The errors emitted are the
    rejections of those keys, in the same order, interleaved with the
    faults of the connection and of the scan stream in the order of their
    events. *)
Theorem chunks_in_completion_order (es : list Event) (s : RedisDumper) :
  run es create = Some s ->
  pushed s
  = (flat_map fulfilledOf (completions es create)
     ++ (if ended s then [End] else []))%list
  /\ Interleaved (flat_map rejectedOf (completions es create)) (faultEvents es)
       (errors s).
Proof.
  intros R. assert (I : Inv s) by (apply inv_reachable; now exists es).
  destruct (completions_run es create s R) as [C F]. simpl in C, F.
  rewrite <- C, <- F. split; [apply (inv_pushed s I) | apply (inv_errors s I)].
Qed.

Lemma nonempty_snoc {A} (l : list A) :
  l <> [] -> exists r x, l = (r ++ [x])%list.
Proof.
  intros N. destruct (exists_last N) as (r & x & H). now exists r, x.
Qed.

(** X3: while the current batch has keys left, the scan stream is paused,
    so no page arrives: a new batch never overwrites keys that are still
    queued.  The end of the scan may arrive meanwhile; it then starts the
    resolution of the last queued key and leaves the others queued. *)
Theorem scan_paused_while_batch_unfinished (es : list Event) (s : RedisDumper) :
  run es create = Some s ->
  keys s <> [] ->
  (exists rest fin, scanStream s = Some (mkScan true rest fin))
  /\ ended s = false
  /\ step ScanData s = None
  /\ (forall s', step ScanEnd s = Some s' ->
        exists k r,
          keys s = (r ++ [k])%list /\ keys s' = r
          /\ pending s' = (pending s ++ [k])%list
          /\ dumping s' = dumping s + 1
          /\ scanDrained s' = true /\ pushed s' = pushed s).
Proof.
  intros R K. assert (I : Inv s) by (apply inv_reachable; now exists es).
  pose proof (inv_scan s I) as Hs. unfold scanShape in Hs.
  assert (E : ended s = false).
  { destruct (ended s) eqn:E; [|reflexivity].
    destruct (inv_ended s I E) as (_ & _ & K0 & _). contradiction. }
  destruct (scanStream s) as [[pa pg fi]|] eqn:Sc.
  - simpl in Hs. destruct Hs as (H1 & H3 & _).
    destruct pa; [|now specialize (H3 eq_refl)].
    split; [now exists pg, fi|]. split; [exact E|].
    split; [simpl; now rewrite Sc|].
    intros s' S1. simpl in S1. rewrite Sc in S1.
    destruct pg as [|batch rest]; [|discriminate].
    destruct fi; [discriminate|]. injection S1 as <-.
    destruct (nonempty_snoc (keys s) K) as (r & k & Hk).
    exists k, r. split; [exact Hk|].
    unfold onScanEnd, nextKey. simpl. rewrite Hk, pop_snoc. simpl.
    repeat split.
  - destruct Hs as (_ & H & _). contradiction.
Qed.

(** X5: the keys of a batch are started from the last one to the first:
    as many [_read] calls as the batch has keys start the resolutions in the
    reverse of the order of the batch, empty the batch, raise the counter by
    the size of the batch and touch nothing else.  In a session the base
    class makes each of these calls when it is not waiting for a push. *)
Theorem batch_started_last_key_first (ks : list Buffer) (s : RedisDumper) :
  keys s = ks ->
  Nat.iter (List.length ks) _read s
  = mkDumper (scanStream s) (scanDrained s)
      (dumping s + Z.of_nat (List.length ks)) [] (reading s)
      (pending s ++ rev ks) (settled s) (pushed s) (errors s) (faults s)
  /\ (forall k r, ks = (r ++ [k])%list ->
        ended s = false -> reading s = false ->
        step Read s
        = Some (mkDumper (scanStream s) (scanDrained s) (dumping s + 1) r true
                  (pending s ++ [k]) (settled s) (pushed s) (errors s) (faults s))).
Proof.
  intros K. split.
  - revert s K. induction ks as [|k r IH] using rev_ind; intros s K.
    + simpl. destruct s; simpl in *. subst. now rewrite Z.add_0_r, app_nil_r.
    + rewrite length_app, Nat.add_1_r, Nat.iter_succ_r.
      unfold _read at 2. unfold nextKey. rewrite K, pop_snoc.
      rewrite (IH (dumpKey k (withKeys r s))); [|reflexivity].
      simpl. rewrite rev_unit, <- app_assoc. simpl.
      f_equal. lia.
  - intros k r -> E Rd. simpl. rewrite E, Rd. simpl.
    unfold _read, nextKey. simpl. rewrite K, pop_snoc. reflexivity.
Qed.

Lemma nextKey_appends (s : RedisDumper) :
  pushed (nextKey s) = pushed s \/ pushed (nextKey s) = (pushed s ++ [End])%list.
Proof.
  unfold nextKey. destruct (JS.pop (keys s)) as [[k r]|]; [now left|].
  destruct (scanStream s) as [st|]; [|now left].
  destruct (negb (scanDrained s) && paused st); [now left|].
  destruct (scanDrained s && (dumping s =? 0)); auto.
Qed.

Lemma step_appends (e : Event) (s s' : RedisDumper) :
  step e s = Some s' ->
  (pushed s' = pushed s /\ errors s' = errors s)
  \/ (exists c, pushed s' = (pushed s ++ [c])%list /\ errors s' = errors s)
  \/ (exists err, pushed s' = pushed s /\ errors s' = (errors s ++ [err])%list).
Proof.
  destruct e as [ | | |i|msg]; simpl.
  - destruct (ended s); [discriminate|]. destruct (reading s); [discriminate|].
    intros H. injection H as <-. unfold _read.
    match goal with |- context [nextKey ?x] =>
      destruct (nextKey_keeps x) as (_ & He & _);
      destruct (nextKey_appends x) as [Hp|Hp] end;
      [left; auto|right; left; exists End; auto].
  - destruct (scanStream s) as [[[] [|batch rest] []]|]; try discriminate.
    intros H. injection H as <-. unfold onScanData. simpl.
    match goal with |- context [nextKey ?x] =>
      destruct (nextKey_keeps x) as (_ & He & _);
      destruct (nextKey_appends x) as [Hp|Hp] end;
      [left; auto|right; left; exists End; auto].
  - destruct (scanStream s) as [[pa [|batch rest] []]|]; try discriminate.
    intros H. injection H as <-. unfold onScanEnd.
    match goal with |- context [nextKey ?x] =>
      destruct (nextKey_keeps x) as (_ & He & _);
      destruct (nextKey_appends x) as [Hp|Hp] end;
      [left; auto|right; left; exists End; auto].
  - destruct (nth_error (pending s) i) as [key|]; [|discriminate].
    intros H. injection H as <-. unfold settle.
    destruct (resolution key) as [bytes|err].
    + right. left. exists (Data bytes). auto.
    + right. right. exists err. auto.
  - destruct (scanStream s); [|discriminate]. intros H. injection H as <-.
    right. right. exists msg. auto.
Qed.

(** X7: nothing that has been pushed or emitted is ever taken back, and an
    event pushes one chunk, or emits one error, or neither: after the events
    [es] the chunks and the errors are those before them followed by at most
    as many new ones, together, as there were events. *)
Theorem output_only_grows (es : list Event) (s s' : RedisDumper) :
  run es s = Some s' ->
  exists chunks errs,
    pushed s' = (pushed s ++ chunks)%list
    /\ errors s' = (errors s ++ errs)%list
    /\ (List.length chunks + List.length errs <= List.length es)%nat.
Proof.
  revert s. induction es as [|e es IH]; simpl; intros s R.
  - injection R as <-. exists [], []. now rewrite !app_nil_r.
  - destruct (step e s) as [s1|] eqn:S1; [|discriminate].
    destruct (IH s1 R) as (cs & er & Hp & He & Hl).
    destruct (step_appends e s s1 S1)
      as [[P1 E1]|[(c & P1 & E1)|(err & P1 & E1)]]; rewrite P1 in Hp; rewrite E1 in He.
    + exists cs, er. repeat split; auto.
    + exists (c :: cs), er. rewrite <- app_assoc in Hp. repeat split; auto.
      simpl. lia.
    + exists cs, (err :: er). rewrite <- app_assoc in He. repeat split; auto.
      simpl. lia.
Qed.

(** X12: a session cannot go on for ever but for faults: every event that
    is no fault lowers the weight of the session and a fault leaves it, so
    whatever the order of the events at most 4 n + 2 p + 4 of them are no
    faults, for n scanned keys on p pages. *)
Theorem state_changes_bounded (es : list Event) (s : RedisDumper) :
  run es create = Some s ->
  (List.length (filter quiet es)
   <= 4 * List.length scannedKeys + 2 * List.length (scanPages store) + 4)%nat
  /\ (List.length (filter quiet es) + weight s <= weight create)%nat
  /\ (forall e s', step e s = Some s' ->
        if quiet e then (weight s' < weight s)%nat else weight s' = weight s).
Proof.
  intros R. assert (I : Inv s) by (apply inv_reachable; now exists es).
  pose proof (total_bound es s R) as B. split; [lia|]. split.
  - rewrite weight_create. exact B.
  - intros e s' S1. now apply step_weight.
Qed.

(** ** Further properties of the resolution and of the serialization *)

Lemma loadValue_shape (key : Buffer) (type : string) (value : option Value) :
  loadValue key type = Fulfilled value ->
  (type = "string"
   /\ exists b, getBuffer store key = Fulfilled b /\ value = option_map VBuf b)
  \/ (String.eqb type "string" = false /\ exists l, value = Some (VList l)).
Proof.
  unfold loadValue, bind.
  destruct (String.eqb_spec type "string") as [->|N].
  - destruct (getBuffer store key) as [b|]; [|discriminate].
    intros H. injection H as <-. left. split; [reflexivity|]. now exists b.
  - intros H. right. split; [reflexivity|].
    repeat match type of H with
    | (if ?c then _ else _) = _ => destruct c
    | match ?r with Fulfilled _ => _ | Rejected _ => _ end = _ =>
        destruct r as [l|]; [injection H as <-; now exists l | discriminate]
    end.
    discriminate.
Qed.

Lemma loadValue_rejected (key : Buffer) (type err : string) :
  loadValue key type = Rejected err ->
  (handled type = false /\ err = "Unhandled type")
  \/ (type = "string" /\ getBuffer store key = Rejected err)
  \/ (type = "list" /\ lrangeBuffer store key = Rejected err)
  \/ (type = "set" /\ smembersBuffer store key = Rejected err)
  \/ (type = "zset" /\ zrangeBuffer store key = Rejected err)
  \/ (type = "hash" /\ hgetallBuffer store key = Rejected err).
Proof.
  unfold loadValue, handled, bind.
  destruct (String.eqb_spec type "string") as [->|N1].
  { destruct (getBuffer store key); [discriminate|]. intros H. injection H as <-. auto. }
  destruct (String.eqb_spec type "list") as [->|N2].
  { destruct (lrangeBuffer store key); [discriminate|]. intros H. injection H as <-. auto. }
  destruct (String.eqb_spec type "set") as [->|N3].
  { destruct (smembersBuffer store key); [discriminate|]. intros H. injection H as <-.
    auto 6. }
  destruct (String.eqb_spec type "zset") as [->|N4].
  { destruct (zrangeBuffer store key); [discriminate|]. intros H. injection H as <-.
    auto 7. }
  destruct (String.eqb_spec type "hash") as [->|N5].
  { destruct (hgetallBuffer store key); [discriminate|]. intros H. injection H as <-.
    auto 8. }
  intros H. injection H as <-. left. auto.
Qed.

(** X8: every error that a resolution emits is the error of the first fetch
    that fails, in the order type, value, ttl, or it is "Unhandled type";
    the value is fetched with the one command of the key's type.  The error
    goes to the stream as it is, nothing is pushed and the counter stays. *)
Theorem resolution_error_origin (key : Buffer) (err : string) (s : RedisDumper) :
  resolution key = Rejected err ->
  (typeOf store key = Rejected err
   \/ (exists type,
         typeOf store key = Fulfilled type
         /\ ((handled type = false /\ err = "Unhandled type")
             \/ (type = "string" /\ getBuffer store key = Rejected err)
             \/ (type = "list" /\ lrangeBuffer store key = Rejected err)
             \/ (type = "set" /\ smembersBuffer store key = Rejected err)
             \/ (type = "zset" /\ zrangeBuffer store key = Rejected err)
             \/ (type = "hash" /\ hgetallBuffer store key = Rejected err)))
   \/ (exists type value,
         typeOf store key = Fulfilled type
         /\ loadValue key type = Fulfilled value
         /\ ttlOf store key = Rejected err))
  /\ pushed (settle key s) = pushed s
  /\ errors (settle key s) = (errors s ++ [err])%list
  /\ dumping (settle key s) = dumping s.
Proof.
  intros R. split.
  - revert R. unfold resolution, bind.
    destruct (typeOf store key) as [type|e]; [|intros H; injection H as <-; auto].
    destruct (loadValue key type) as [value|e] eqn:L.
    + destruct (ttlOf store key) as [ttl|e]; [discriminate|].
      intros H. injection H as <-. right. right. exists type, value. auto.
    + intros H. injection H as <-. right. left. exists type.
      split; [reflexivity|]. now apply loadValue_rejected.
  - unfold settle. rewrite R. repeat split.
Qed.

Lemma typeCommands_buffers (key : Buffer) (type : string) (value : Value) :
  (type = "string" \/ exists l, value = VList l) ->
  Forall (fun c => forallb isBuf (args c) = true) (typeCommands key type value).
Proof.
  assert (M : forall l, forallb isBuf (map ABuf l) = true).
  { induction l as [|x l IH]; simpl; auto. }
  intros H. unfold typeCommands.
  destruct (String.eqb_spec type "string") as [->|N].
  { constructor; [|constructor]. simpl. destruct value as [b|l]; simpl; auto. }
  destruct H as [H|[l ->]]; [contradiction|].
  repeat match goal with |- context [if ?c then _ else _] => destruct c end;
    repeat constructor; simpl; apply M.
Qed.

(** X9: the chunk that the pipeline pushes for a key is the serialization
    of the three replies of the store for the key: its type, the value that
    [loadValue] resolved to and its ttl.  For a string the value is the
    reply of [getBuffer], and when that reply is [null], the key being
    gone, the frame is SET key with the empty string; for the other types
    it is the array that the store replied.  All the arguments of the
    frames are [Buffer]s, but for the number of the EXPIRE frame. *)
Theorem pipeline_frames_carry_buffers (key bytes : Buffer) :
  resolution key = Fulfilled bytes ->
  exists type loaded ttl,
    typeOf store key = Fulfilled type
    /\ loadValue key type = Fulfilled loaded
    /\ ttlOf store key = Fulfilled ttl
    /\ bytes = JS.concat (map toWritable (outputCommands key type (written loaded) ttl))
    /\ (type = "string" ->
        exists reply,
          getBuffer store key = Fulfilled reply
          /\ loaded = option_map VBuf reply
          /\ typeCommands key type (written loaded)
             = [mkCommand "SET"
                  [ABuf key;
                   ABuf (match reply with Some b => b | None => EmptyString end)]])
    /\ (type <> "string" -> exists l, loaded = Some (VList l))
    /\ Forall (fun c => forallb isBuf (args c) = true
                        \/ exists n, c = mkCommand "EXPIRE" [ABuf key; ANum n])
         (outputCommands key type (written loaded) ttl).
Proof.
  intros R. destruct (resolution_fulfilled key bytes R)
    as (type & loaded & ttl & T & L & X & B).
  exists type, loaded, ttl. do 4 (split; [assumption|]).
  assert (Ex : Forall (fun c => forallb isBuf (args c) = true
                        \/ exists n, c = mkCommand "EXPIRE" [ABuf key; ANum n])
                 (expireCommands key ttl)).
  { destruct (expireCommands_cases key ttl) as [(n & _ & _ & E)|(_ & E)];
      rewrite E; [|constructor].
    constructor; [right; now exists n | constructor]. }
  destruct (loadValue_shape key type loaded L) as [(-> & b & G & ->)|(N & l & ->)].
  - split; [|split].
    + intros _. exists b. split; [exact G|]. split; [reflexivity|].
      now destruct b.
    + intros H. contradiction.
    + unfold outputCommands. apply Forall_app. split; [|exact Ex].
      eapply Forall_impl; [|apply typeCommands_buffers; now left]. auto.
  - split; [|split].
    + intros H. rewrite H in N. discriminate N.
    + intros _. now exists l.
    + unfold outputCommands. apply Forall_app. split; [|exact Ex].
      eapply Forall_impl; [|apply typeCommands_buffers; right; now exists l]. auto.
Qed.

(** X10: for a string key the pipeline pushes SET key value with the value
    as the store replied it, the empty string standing for a [null] reply;
    for a set key DEL key and SADD key m1 ... mn, and for a hash key DEL
    key and HMSET key f1 v1 ... fn vn, the arguments being the reply of the
    store, unchanged and in its order; the EXPIRE frame of the ttl, if any,
    follows. *)
Theorem string_set_hash_chunks (key : Buffer) (ttl : string) :
  ttlOf store key = Fulfilled ttl ->
  (forall v, typeOf store key = Fulfilled "string" ->
             getBuffer store key = Fulfilled v ->
             resolution key
             = Fulfilled (JS.concat (map toWritable
                 ([mkCommand "SET"
                     [ABuf key;
                      ABuf (match v with Some b => b | None => EmptyString end)]]
                  ++ expireCommands key ttl)%list)))
  /\ (forall ms, typeOf store key = Fulfilled "set" ->
                 smembersBuffer store key = Fulfilled ms ->
                 resolution key
                 = Fulfilled (JS.concat (map toWritable
                     ([mkCommand "DEL" [ABuf key];
                       mkCommand "SADD" (ABuf key :: map ABuf ms)]
                      ++ expireCommands key ttl)%list)))
  /\ (forall fvs, typeOf store key = Fulfilled "hash" ->
                  hgetallBuffer store key = Fulfilled fvs ->
                  resolution key
                  = Fulfilled (JS.concat (map toWritable
                      ([mkCommand "DEL" [ABuf key];
                        mkCommand "HMSET" (ABuf key :: map ABuf fvs)]
                       ++ expireCommands key ttl)%list))).
Proof.
  intros X. split; [|split]; intros l T L; unfold resolution, bind; rewrite T;
    unfold loadValue; simpl; unfold bind; rewrite L, X; [now destruct l| |];
    reflexivity.
Qed.

(** X14: every frame of a serialization has the key as its first argument,
    so a chunk acts on no other key; a serialization has at most three
    frames, and at most one for a type that is not handled. *)
Theorem frames_address_the_key_only
  (key : Buffer) (type : string) (value : Value) (ttl : string) :
  Forall (fun c => hd_error (args c) = Some (ABuf key))
    (outputCommands key type value ttl)
  /\ (List.length (outputCommands key type value ttl) <= 3)%nat
  /\ (handled type = false ->
      (List.length (outputCommands key type value ttl) <= 1)%nat).
Proof.
  assert (E : Forall (fun c => hd_error (args c) = Some (ABuf key))
                (expireCommands key ttl)
              /\ (List.length (expireCommands key ttl) <= 1)%nat).
  { destruct (expireCommands_cases key ttl) as [(n & _ & _ & E)|(_ & E)];
      rewrite E; simpl; split; auto. }
  destruct E as [E1 E2].
  assert (T : Forall (fun c => hd_error (args c) = Some (ABuf key))
                (typeCommands key type value)
              /\ (List.length (typeCommands key type value) <= 2)%nat).
  { unfold typeCommands.
    repeat match goal with |- context [if ?c then _ else _] => destruct c end;
      simpl; split; auto. }
  destruct T as [T1 T2]. unfold outputCommands. split; [|split].
  - apply Forall_app. auto.
  - rewrite length_app. lia.
  - intros H. rewrite (unhandled_typeCommands key type value H). exact E2.
Qed.

(** X11: white space before the ttl and any text after its digits that does
    not start with a digit are ignored: such a ttl parses to the same
    number and gives the same EXPIRE frame, or none, as the bare text of
    the integer; for an integer [t] of at most 2^53 in magnitude the
    number is [t] itself. *)
Theorem ttl_padding_is_ignored (key : Buffer) (ws rest : string) (t : Z) :
  allWhiteSpace ws = true ->
  noLeadingDigit rest = true ->
  JS.parseInt (ws ++ decimal t ++ rest) = JS.parseInt (decimal t)
  /\ expireCommands key (ws ++ decimal t ++ rest) = expireCommands key (decimal t)
  /\ (safeInteger t ->
      JS.parseInt (ws ++ decimal t ++ rest) = Some t
      /\ expireCommands key (ws ++ decimal t ++ rest)
         = (if t =? -1 then [] else [mkCommand "EXPIRE" [ABuf key; ANum t]])).
Proof.
  intros W H.
  assert (P : JS.parseInt (ws ++ decimal t ++ rest) = JS.parseInt (decimal t)).
  { rewrite parseInt_app_white by exact W.
    now rewrite parseInt_decimal_app, parseInt_decimal. }
  split; [exact P|]. split; [unfold expireCommands; now rewrite P|].
  intros S. unfold expireCommands. rewrite P, parseInt_decimal_safe by exact S.
  split; [reflexivity|]. now destruct (t =? -1).
Qed.

(** X15: when the ttl that the store replies is the text of an integer t
    of at most 2^53 in magnitude other than -1, the chunk pushed for the
    key is the frames of its type followed by EXPIRE key t, which is its
    last frame; when the reply is -1 the chunk is the frames of the type
    alone. *)
Theorem finite_ttl_gives_trailing_expire
  (key : Buffer) (type : string) (value : option Value) (t : Z) :
  typeOf store key = Fulfilled type ->
  loadValue key type = Fulfilled value ->
  ttlOf store key = Fulfilled (decimal t) ->
  safeInteger t ->
  (t <> -1 ->
   resolution key
   = Fulfilled (JS.concat (map toWritable
       (typeCommands key type (written value)
        ++ [mkCommand "EXPIRE" [ABuf key; ANum t]])%list))
   /\ last (outputCommands key type (written value) (decimal t)) (mkCommand "" [])
      = mkCommand "EXPIRE" [ABuf key; ANum t])
  /\ (t = -1 ->
      resolution key
      = Fulfilled (JS.concat (map toWritable (typeCommands key type (written value))))).
Proof.
  intros T L X S.
  assert (R : resolution key
              = Fulfilled (JS.concat (map toWritable
                  (typeCommands key type (written value)
                   ++ expireCommands key (decimal t))%list))).
  { unfold resolution, bind. now rewrite T, L, X. }
  assert (E : expireCommands key (decimal t)
              = if t =? -1 then [] else [mkCommand "EXPIRE" [ABuf key; ANum t]]).
  { unfold expireCommands. rewrite parseInt_decimal_safe by exact S.
    now destruct (t =? -1). }
  split.
  - intros N. apply Z.eqb_neq in N. rewrite N in E. rewrite R, E.
    split; [reflexivity|]. unfold outputCommands. rewrite E. apply last_last.
  - intros ->. simpl in E. rewrite R, E. now rewrite app_nil_r.
Qed.

(** X16: when a page of the scan arrives in a session, the scan stream is
    paused and the resolution of the last key of the page is started at
    once, the other keys being queued; when the page is empty, the stream
    is resumed at once and the session is as before, the page apart. *)
Theorem page_arrival
  (es : list Event) (s : RedisDumper) (batch : list Buffer)
  (rest : list (list Buffer)) :
  run es create = Some s ->
  scanStream s = Some (mkScan false (batch :: rest) false) ->
  match JS.pop batch with
  | Some (key, queued) =>
      step ScanData s
      = Some (mkDumper (Some (mkScan true rest false)) false (dumping s + 1)
                queued (reading s) (pending s ++ [key]) (settled s) (pushed s)
                (errors s) (faults s))
  | None =>
      step ScanData s
      = Some (mkDumper (Some (mkScan false rest false)) false (dumping s)
                [] (reading s) (pending s) (settled s) (pushed s)
                (errors s) (faults s))
  end.
Proof.
  intros R Sc. assert (I : Inv s) by (apply inv_reachable; now exists es).
  pose proof (inv_scan s I) as Hs. unfold scanShape in Hs. rewrite Sc in Hs.
  simpl in Hs. destruct Hs as (D & _ & _). symmetry in D.
  simpl. rewrite Sc. unfold onScanData, nextKey. simpl.
  destruct (JS.pop batch) as [[key queued]|] eqn:P.
  - unfold dumpKey, withPending, withDumping, withKeys, withScan. simpl.
    now rewrite D.
  - simpl. rewrite D. simpl. unfold withScan. simpl.
    now rewrite D, (pop_none batch P).
Qed.

(** X17: when the scan stream ends in a session, [scanDrained] is set.  If
    keys of the last page are still queued, the resolution of the last of
    them is started and nothing is pushed.  Otherwise the end of the
    stream is pushed at once if no resolution is in flight, and if one is,
    nothing is pushed and the session stays open. *)
Theorem scan_end_arrival (es : list Event) (s s' : RedisDumper) :
  run es create = Some s ->
  step ScanEnd s = Some s' ->
  scanDrained s' = true
  /\ match JS.pop (keys s) with
     | Some (key, queued) =>
         s' = mkDumper (Some (mkScan true [] true)) true (dumping s + 1)
                queued (reading s) (pending s ++ [key]) (settled s) (pushed s)
                (errors s) (faults s)
     | None =>
         keys s' = [] /\ pending s' = pending s /\ dumping s' = dumping s
         /\ (dumping s = 0 -> pushed s' = (pushed s ++ [End])%list)
         /\ (dumping s <> 0 -> pushed s' = pushed s /\ ended s' = false)
     end.
Proof.
  intros R S1. assert (I : Inv s) by (apply inv_reachable; now exists es).
  pose proof (inv_scan s I) as Hs. unfold scanShape in Hs.
  simpl in S1.
  destruct (scanStream s) as [[pa [|batch rest] []]|] eqn:Sc; try discriminate.
  simpl in Hs. destruct Hs as (D & K & _).
  assert (En : ended s = false) by (apply ended_false_of_scanning; auto).
  injection S1 as <-. unfold onScanEnd, nextKey. simpl.
  destruct (JS.pop (keys s)) as [[key queued]|] eqn:P.
  - split; [reflexivity|]. apply pop_some in P.
    destruct pa; [reflexivity|].
    rewrite (K eq_refl) in P. now destruct queued.
  - apply pop_none in P. simpl.
    destruct (Z.eqb_spec (dumping s) 0) as [Z0|N]; simpl.
    + split; [reflexivity|].
      do 3 (split; [first [reflexivity | exact P]|]). split; [reflexivity|].
      intros Hn. contradiction.
    + split; [reflexivity|].
      do 3 (split; [first [reflexivity | exact P]|]).
      split; [intros Hz; contradiction|].
      intros _. split; [reflexivity|exact En].
Qed.

End Dumper.
(** ** The encoder and the sessions on concrete stores *)

(** The frame that the command line test expects for [SET key value]. *)
Example resp_set_key_value :
  oneStringFrame
  = JS.concat ["*3"; CRLF; "$3"; CRLF; "SET"; CRLF; "$3"; CRLF; "key"; CRLF;
               "$5"; CRLF; "value"; CRLF].
Proof. reflexivity. Qed.

Example resp_expire_number :
  respWritable (mkCommand "EXPIRE" [ABuf "key"; ANum 120])
  = JS.concat ["*3"; CRLF; "$6"; CRLF; "EXPIRE"; CRLF; "$3"; CRLF; "key"; CRLF;
               "$3"; CRLF; "120"; CRLF].
Proof. vm_compute. reflexivity. Qed.

Example parseInt_samples :
  JS.parseInt "120" = Some 120 /\ JS.parseInt "-1" = Some (-1)
  /\ JS.parseInt "-2" = Some (-2) /\ JS.parseInt " +7 days" = Some 7
  /\ JS.parseInt "3.7" = Some 3 /\ JS.parseInt "" = None
  /\ JS.parseInt "never" = None /\ JS.parseInt "-" = None.
Proof. vm_compute. repeat split. Qed.

(** Beyond 2^53 [parseInt] rounds to the nearest double, and [String] of a
    number prints the shortest digits that denote it. *)
Example parseInt_rounds :
  JS.parseInt "9007199254740993" = Some 9007199254740992
  /\ JS.parseInt "-9007199254740995" = Some (-9007199254740996)
  /\ numberToString 18446744073709551616 = "18446744073709552000"
  /\ numberToString (10 ^ 21) = "1e+21"
  /\ numberToString (-2) = "-2".
Proof. vm_compute. repeat split. Qed.

(** A whole session on the store of one string key: the scan ends while the
    key is in flight, on the paused stream. *)
Example one_string_session :
  run respWritable oneStringStore [Read; ScanData; ScanData] create
  = Some oneStringInFlight
  /\ run respWritable oneStringStore [ScanEnd; Settle 0] oneStringInFlight
     = Some oneStringPushed
  /\ step respWritable oneStringStore Read oneStringPushed = Some oneStringDone.
Proof. vm_compute. repeat split. Qed.

(** The same key resolved before the scan ends: [_read] resumes the scan
    stream and the end of the scan pushes the end of the stream. *)
Example one_string_session_early_settle :
  run respWritable oneStringStore [Settle 0; Read; ScanEnd] oneStringInFlight
  = Some (mkDumper (Some (mkScan false [] true)) true 0 [] false [] ["key"]
            [Data oneStringFrame; End] [] []).
Proof. vm_compute. reflexivity. Qed.

(** The session on the empty database. *)
Example empty_session :
  run respWritable emptyStore [Read; ScanData] create = Some emptyScanning
  /\ step respWritable emptyStore ScanEnd emptyScanning = Some emptyDone.
Proof. split; reflexivity. Qed.

(** The base class does not call [_read] again before a push. *)
Example no_second_read :
  step respWritable oneStringStore Read oneStringInFlight = None.
Proof. reflexivity. Qed.

(** The end of the scan on the paused stream starts the queued key. *)
Example two_key_session :
  run respWritable twoKeyStore [Read; ScanData] create = Some twoKeyQueued
  /\ step respWritable twoKeyStore ScanEnd twoKeyQueued = Some twoKeyBothInFlight.
Proof. vm_compute. split; reflexivity. Qed.

(** A string key that is gone when its value is fetched is written with the
    empty string, and the EXPIRE frame of its ttl -2 follows. *)
Example vanished_key_chunk :
  resolution respWritable vanishedStore "k"
  = Fulfilled (JS.concat (map respWritable
      [mkCommand "SET" [ABuf "k"; ABuf ""];
       mkCommand "EXPIRE" [ABuf "k"; ANum (-2)]])).
Proof. vm_compute. reflexivity. Qed.

(** ** Counterexamples and instances *)

(** C1, counterexample: on a store whose one key has the type "stream", the
    settlement of the key emits the error "Unhandled type" and leaves the
    counter at one; the key is not dropped silently. *)
Lemma unhandled_type_not_dropped_silently :
  run respWritable streamStore [Read; ScanData] create = Some streamInFlight
  /\ step respWritable streamStore (Settle 0) streamInFlight = Some streamFailed
  /\ ~ specDroppedSilently streamInFlight streamFailed.
Proof.
  split; [reflexivity|]. split; [reflexivity|].
  intros (_ & H & _). discriminate H.
Qed.

Lemma unhandled_type_fails_session_witness :
  typeOf streamStore "events" = Fulfilled "stream"
  /\ handled "stream" = false
  /\ resolution respWritable streamStore "events" = Rejected "Unhandled type"
  /\ In "Unhandled type" (errors streamStuck)
  /\ ended streamStuck = false.
Proof.
  split; [reflexivity|]. split; [reflexivity|].
  pose proof (unhandled_type_fails_session respWritable streamStore
                "events" "stream" create eq_refl eq_refl)
    as (_ & H & _ & _ & _ & _ & F).
  split; [exact H|].
  exact (F [Read; ScanData; Settle 0; ScanEnd] streamStuck eq_refl
           (or_introl eq_refl)).
Defined.

(** C2, counterexample: for the members a (score 1) and b (score 2) the
    ZADD arguments are 2 b 1 a, not 1 a 2 b: the first-ranked member does
    not come first. *)
Lemma zset_ranking_order_not_kept :
  outputCommands "k" "zset" (VList (withScores [("a", "1"); ("b", "2")])) "-1"
  = [mkCommand "DEL" [ABuf "k"];
     mkCommand "ZADD" [ABuf "k"; ABuf "2"; ABuf "b"; ABuf "1"; ABuf "a"]]
  /\ outputCommands "k" "zset" (VList (withScores [("a", "1"); ("b", "2")])) "-1"
     <> (specZaddCommands "k" [("a", "1"); ("b", "2")] ++ expireCommands "k" "-1")%list.
Proof.
  split; [vm_compute; reflexivity|]. intros H. vm_compute in H. discriminate H.
Qed.

Lemma zset_reverses_whole_reply_witness :
  outputCommands "k" "zset" (VList ["a"; "1"; "b"; "2"]) "60"
  = ([mkCommand "DEL" [ABuf "k"];
      mkCommand "ZADD" [ABuf "k"; ABuf "2"; ABuf "b"; ABuf "1"; ABuf "a"]]
     ++ expireCommands "k" "60")%list.
Proof.
  exact (zset_reverses_whole_reply "k" [("a", "1"); ("b", "2")] "60").
Defined.

(** C3, counterexample: the ttl -2 parses to a negative integer, and the
    EXPIRE frame is appended all the same. *)
Lemma expire_appended_for_ttl_minus_two :
  outputCommands "k" "string" (VBuf "v") "-2"
  = [mkCommand "SET" [ABuf "k"; ABuf "v"]; mkCommand "EXPIRE" [ABuf "k"; ANum (-2)]]
  /\ ~ specExpires "-2"
  /\ ~ (expireCommands "k" "-2" <> [] <-> specExpires "-2").
Proof.
  assert (N : ~ specExpires "-2").
  { intros (n & P & H). vm_compute in P. injection P as <-. lia. }
  split; [vm_compute; reflexivity|]. split; [exact N|].
  intros [H _]. apply N, H. vm_compute. discriminate.
Qed.

Lemma expire_iff_ttl_parses_witness :
  safeInteger 60
  /\ expireCommands "k" (decimal 60) = [mkCommand "EXPIRE" [ABuf "k"; ANum 60]].
Proof.
  assert (S : safeInteger 60) by (unfold safeInteger; lia).
  split; [exact S|].
  exact (proj2 (proj2 (proj2 (expire_iff_ttl_parses_and_differs_from_minus_one
                                "k" "string" (VBuf "v") "60"))) 60 S).
Defined.



Lemma key_contributes_one_ordered_run_witness :
  resolution respWritable oneStringStore "key" = Fulfilled oneStringFrame
  /\ exists type value ttl insert expire,
       typeOf oneStringStore "key" = Fulfilled type /\ handled type = true
       /\ outputCommands "key" type value ttl
          = ((if String.eqb type "string" then [insert]
              else [mkCommand "DEL" [ABuf "key"]; insert]) ++ expire)%list
       /\ (if String.eqb type "string" then name insert = "SET"
           else In (name insert) ["RPUSH"; "SADD"; "ZADD"; "HMSET"])
       /\ hd_error (args insert) = Some (ABuf "key")
       /\ (expire = []
           \/ exists n, expire = [mkCommand "EXPIRE" [ABuf "key"; ANum n]])
       /\ oneStringFrame
          = JS.concat (map respWritable (outputCommands "key" type value ttl))
       /\ pushed (settle respWritable oneStringStore "key" create)
          = ([] ++ [Data oneStringFrame])%list.
Proof.
  assert (R : resolution respWritable oneStringStore "key" = Fulfilled oneStringFrame)
    by (vm_compute; reflexivity).
  split; [exact R|].
  exact (key_contributes_one_ordered_run respWritable oneStringStore "key"
           oneStringFrame create R).
Defined.

Lemma single_string_key_witness :
  run respWritable oneStringStore
    [Read; ScanData; ScanData; ScanEnd; Settle 0; Read] create = Some oneStringDone
  /\ ended oneStringDone = true
  /\ output oneStringDone
     = respWritable (mkCommand "SET" [ABuf "key"; ABuf "value"])
  /\ errors oneStringDone = faults oneStringDone.
Proof.
  split; [reflexivity|]. split; [reflexivity|].
  pose proof (single_string_key_gives_one_set_frame
    respWritable oneStringStore "key" "value"
    [Read; ScanData; ScanData; ScanEnd; Settle 0; Read] oneStringDone
    eq_refl eq_refl eq_refl eq_refl eq_refl) as (_ & Ef & _ & En & _).
  split; [exact (proj2 (En eq_refl)) | exact Ef].
Defined.

(** C7, counterexample: a list whose ttl is 0, less than half a second
    being left, is written with EXPIRE l 0 after RPUSH, and replaying the
    frames removes the key instead of leaving the elements. *)
Lemma list_lost_when_ttl_not_positive :
  outputCommands "l" "list" (VList ["a"; "b"]) "0"
  = [mkCommand "DEL" [ABuf "l"]; mkCommand "RPUSH" [ABuf "l"; ABuf "a"; ABuf "b"];
     mkCommand "EXPIRE" [ABuf "l"; ANum 0]]
  /\ replayAll "l" (outputCommands "l" "list" (VList ["a"; "b"]) "0") [] = Some []
  /\ ~ specReplayKeeps "l" ["a"; "b"] "0".
Proof.
  split; [vm_compute; reflexivity|]. split; [vm_compute; reflexivity|].
  intros H. specialize (H []). vm_compute in H. discriminate H.
Qed.

Lemma list_frames_keep_order_witness :
  resolution respWritable
    (uniformStore [["l"]] "list" "" ["a"; "b"; "c"] "-1") "l"
  = Fulfilled (JS.concat (map respWritable
      ([mkCommand "DEL" [ABuf "l"];
        mkCommand "RPUSH" (ABuf "l" :: map ABuf ["a"; "b"; "c"])]
       ++ expireCommands "l" "-1")%list))
  /\ specReplayKeeps "l" ["a"; "b"; "c"] "-1".
Proof.
  pose proof (list_frames_keep_order respWritable
    (uniformStore [["l"]] "list" "" ["a"; "b"; "c"] "-1") "l" ["a"; "b"; "c"] "-1")
    as (_ & H2 & _ & _ & H5).
  split; [exact (H2 eq_refl eq_refl eq_refl)|].
  apply (H5 ltac:(discriminate)). right. exists (-1).
  split; [vm_compute; reflexivity | left; reflexivity].
Defined.

Lemma empty_database_witness :
  scannedKeys emptyStore = []
  /\ run respWritable emptyStore [Read; ScanData; ScanEnd] create = Some emptyDone
  /\ output emptyDone = EmptyString
  /\ pushed emptyDone = [End].
Proof.
  split; [reflexivity|]. split; [reflexivity|].
  pose proof (empty_database_gives_empty_stream respWritable emptyStore
    [Read; ScanData; ScanEnd] emptyDone eq_refl eq_refl) as (H1 & H2 & _).
  split; [exact H2 | exact H1].
Defined.

Lemma dumping_counts_witness :
  run respWritable twoKeyStore [Read; ScanData; ScanEnd] create
  = Some twoKeyBothInFlight
  /\ 0 <= dumping twoKeyBothInFlight
  /\ dumping twoKeyBothInFlight
     = Z.of_nat (startedCount twoKeyBothInFlight)
       - Z.of_nat (dataCount twoKeyBothInFlight).
Proof.
  split; [reflexivity|].
  pose proof (dumping_counts_resolutions_in_flight respWritable twoKeyStore
    [Read; ScanData; ScanEnd] twoKeyBothInFlight eq_refl) as (H1 & H2 & _).
  split; assumption.
Defined.

Lemma unhandled_type_serializes_expire_only_witness :
  handled "stream" = false
  /\ JS.parseInt "60" = Some 60
  /\ outputProtocol respWritable "k" "stream" (VBuf "") "60"
     = respWritable (mkCommand "EXPIRE" [ABuf "k"; ANum 60])
  /\ outputProtocol respWritable "k" "stream" (VBuf "") "-1" = EmptyString.
Proof.
  assert (P : JS.parseInt "60" = Some 60) by (vm_compute; reflexivity).
  assert (M : JS.parseInt "-1" = Some (-1)) by (vm_compute; reflexivity).
  split; [reflexivity|]. split; [exact P|]. split.
  - exact (proj2 (proj1 (proj2 (unhandled_type_serializes_expire_only respWritable
      "k" "stream" (VBuf "") "60" eq_refl)) 60 P ltac:(discriminate))).
  - exact (proj2 (proj2 (proj2 (unhandled_type_serializes_expire_only respWritable
      "k" "stream" (VBuf "") "-1" eq_refl)) (or_introl M))).
Defined.

(** ** Instances of the further properties *)


Lemma failing_key_blocks_end_witness :
  resolution respWritable brokenTtlStore "k" = Rejected "ERR ttl"
  /\ run respWritable brokenTtlStore [Read; ScanData; Settle 0] create
     = Some (mkDumper (Some (mkScan true [] false)) false 1 [] true [] ["k"] []
               ["ERR ttl"] [])
  /\ ended (mkDumper (Some (mkScan true [] false)) false 1 [] true [] ["k"] []
              ["ERR ttl"] []) = false.
Proof.
  split; [reflexivity|]. split; [reflexivity|].
  exact (proj1 (failing_key_blocks_end respWritable brokenTtlStore "k" "ERR ttl"
    [Read; ScanData; Settle 0]
    (mkDumper (Some (mkScan true [] false)) false 1 [] true [] ["k"] []
       ["ERR ttl"] [])
    (or_introl eq_refl) eq_refl eq_refl)).
Defined.

Lemma scan_paused_while_batch_unfinished_witness :
  run respWritable twoKeyStore [Read; ScanData] create = Some twoKeyQueued
  /\ keys twoKeyQueued = ["a"]
  /\ step respWritable twoKeyStore ScanData twoKeyQueued = None
  /\ exists k r,
       keys twoKeyQueued = (r ++ [k])%list /\ keys twoKeyBothInFlight = r
       /\ pending twoKeyBothInFlight = (pending twoKeyQueued ++ [k])%list
       /\ dumping twoKeyBothInFlight = dumping twoKeyQueued + 1
       /\ scanDrained twoKeyBothInFlight = true
       /\ pushed twoKeyBothInFlight = pushed twoKeyQueued.
Proof.
  split; [reflexivity|]. split; [reflexivity|].
  pose proof (scan_paused_while_batch_unfinished respWritable twoKeyStore
    [Read; ScanData] twoKeyQueued eq_refl ltac:(discriminate))
    as (_ & _ & H & G).
  split; [exact H|]. exact (G twoKeyBothInFlight eq_refl).
Defined.


Lemma dumping_bounded_by_scanned_witness :
  dumping twoKeyBothInFlight <= Z.of_nat (List.length (scannedKeys twoKeyStore)).
Proof.
  exact (proj2 (dumping_bounded_by_scanned respWritable twoKeyStore
    [Read; ScanData; ScanEnd] twoKeyBothInFlight eq_refl)).
Defined.

Lemma batch_started_last_key_first_witness :
  Nat.iter 2 (_read twoKeyStore)
    (mkDumper (Some (mkScan true [] false)) false 0 ["a"; "b"] false [] [] [] [] [])
  = mkDumper (Some (mkScan true [] false)) false (0 + 2) [] false
      ([] ++ rev ["a"; "b"]) [] [] [] [].
Proof.
  exact (proj1 (batch_started_last_key_first respWritable twoKeyStore ["a"; "b"]
    (mkDumper (Some (mkScan true [] false)) false 0 ["a"; "b"] false [] [] [] [] [])
    eq_refl)).
Defined.

Lemma output_only_grows_witness :
  exists chunks errs,
    pushed oneStringDone = (pushed create ++ chunks)%list
    /\ errors oneStringDone = (errors create ++ errs)%list
    /\ (List.length chunks + List.length errs <= 6)%nat.
Proof.
  exact (output_only_grows respWritable oneStringStore
    [Read; ScanData; ScanData; ScanEnd; Settle 0; Read] create oneStringDone
    eq_refl).
Defined.

Lemma resolution_error_origin_witness :
  resolution respWritable brokenTtlStore "k" = Rejected "ERR ttl"
  /\ errors (settle respWritable brokenTtlStore "k" create) = ["ERR ttl"]
  /\ pushed (settle respWritable brokenTtlStore "k" create) = [].
Proof.
  split; [reflexivity|].
  pose proof (resolution_error_origin respWritable brokenTtlStore "k" "ERR ttl"
    create eq_refl) as (_ & H1 & H2 & _).
  split; assumption.
Defined.

Lemma pipeline_frames_carry_buffers_witness :
  resolution respWritable vanishedStore "k"
  = Fulfilled (JS.concat (map respWritable
      [mkCommand "SET" [ABuf "k"; ABuf ""];
       mkCommand "EXPIRE" [ABuf "k"; ANum (-2)]]))
  /\ exists type loaded ttl,
       typeOf vanishedStore "k" = Fulfilled type
       /\ loadValue vanishedStore "k" type = Fulfilled loaded
       /\ ttlOf vanishedStore "k" = Fulfilled ttl.
Proof.
  assert (R : resolution respWritable vanishedStore "k"
              = Fulfilled (JS.concat (map respWritable
                  [mkCommand "SET" [ABuf "k"; ABuf ""];
                   mkCommand "EXPIRE" [ABuf "k"; ANum (-2)]])))
    by (vm_compute; reflexivity).
  split; [exact R|].
  destruct (pipeline_frames_carry_buffers respWritable vanishedStore "k" _ R)
    as (type & loaded & ttl & T & L & X & _).
  exists type, loaded, ttl. auto.
Defined.

Lemma string_set_hash_chunks_witness :
  resolution respWritable oneStringStore "key"
  = Fulfilled (JS.concat (map respWritable
      ([mkCommand "SET" [ABuf "key"; ABuf "value"]]
       ++ expireCommands "key" "-1")%list)).
Proof.
  exact (proj1 (string_set_hash_chunks respWritable oneStringStore "key" "-1"
    eq_refl) (Some "value") eq_refl eq_refl).
Defined.

Lemma ttl_padding_is_ignored_witness :
  safeInteger 60
  /\ JS.parseInt (" " ++ decimal 60 ++ " s") = Some 60
  /\ expireCommands "k" (" " ++ decimal 60 ++ " s")
     = [mkCommand "EXPIRE" [ABuf "k"; ANum 60]].
Proof.
  assert (S : safeInteger 60) by (unfold safeInteger; lia).
  split; [exact S|].
  exact (proj2 (proj2 (ttl_padding_is_ignored "k" " " " s" 60 eq_refl eq_refl)) S).
Defined.

Lemma state_changes_bounded_witness :
  (List.length (filter quiet [Read; ScanData; ScanData; ScanEnd; Settle 0; Read])
   <= 4 * List.length (scannedKeys oneStringStore)
      + 2 * List.length (scanPages oneStringStore) + 4)%nat.
Proof.
  exact (proj1 (state_changes_bounded respWritable oneStringStore
    [Read; ScanData; ScanData; ScanEnd; Settle 0; Read] oneStringDone eq_refl)).
Defined.

Lemma chunks_in_completion_order_witness :
  pushed oneStringDone
  = (flat_map (fulfilledOf respWritable oneStringStore)
       (completions respWritable oneStringStore
          [Read; ScanData; ScanData; ScanEnd; Settle 0; Read] create)
     ++ (if ended oneStringDone then [End] else []))%list.
Proof.
  exact (proj1 (chunks_in_completion_order respWritable oneStringStore
    [Read; ScanData; ScanData; ScanEnd; Settle 0; Read] oneStringDone eq_refl)).
Defined.

Lemma finite_ttl_gives_trailing_expire_witness :
  safeInteger 60
  /\ resolution respWritable (uniformStore [["k"]] "string" "v" [] (decimal 60)) "k"
     = Fulfilled (JS.concat (map respWritable
         (typeCommands "k" "string" (written (Some (VBuf "v")))
          ++ [mkCommand "EXPIRE" [ABuf "k"; ANum 60]])%list)).
Proof.
  assert (S : safeInteger 60) by (unfold safeInteger; lia).
  split; [exact S|].
  exact (proj1 (proj1 (finite_ttl_gives_trailing_expire respWritable
    (uniformStore [["k"]] "string" "v" [] (decimal 60)) "k" "string"
    (Some (VBuf "v")) 60 eq_refl eq_refl eq_refl S) ltac:(discriminate))).
Defined.

Lemma page_arrival_witness :
  step respWritable twoKeyStore ScanData
    (mkDumper (Some (mkScan false [["a"; "b"]] false)) false 0 [] true [] [] [] [] [])
  = Some twoKeyQueued.
Proof.
  exact (page_arrival respWritable twoKeyStore [Read]
    (mkDumper (Some (mkScan false [["a"; "b"]] false)) false 0 [] true [] [] [] [] [])
    ["a"; "b"] [] eq_refl eq_refl).
Defined.

Lemma scan_end_arrival_witness :
  step respWritable twoKeyStore ScanEnd twoKeyQueued = Some twoKeyBothInFlight
  /\ scanDrained twoKeyBothInFlight = true
  /\ twoKeyBothInFlight
     = mkDumper (Some (mkScan true [] true)) true (dumping twoKeyQueued + 1)
         [] (reading twoKeyQueued) (pending twoKeyQueued ++ ["a"])
         (settled twoKeyQueued) (pushed twoKeyQueued) (errors twoKeyQueued)
         (faults twoKeyQueued).
Proof.
  split; [reflexivity|].
  exact (scan_end_arrival respWritable twoKeyStore [Read; ScanData]
    twoKeyQueued twoKeyBothInFlight eq_refl eq_refl).
Defined.

Lemma frames_address_the_key_only_witness :
  handled "stream" = false
  /\ (List.length (outputCommands "k" "stream" (VBuf "") "60") <= 1)%nat.
Proof.
  split; [reflexivity|].
  exact (proj2 (proj2 (frames_address_the_key_only "k" "stream" (VBuf "") "60"))
           eq_refl).
Defined.
